(** * The four-point planar fit of the sign designer (src/src/App.jsx)

    A shallow embedding of [orderQuad], [solveAffine], [decomposeAffineToTRS],
    the click handler [addPoint] of [FourPointFitOverlay] and the orchestration
    [applyFourPointFit], with the properties of them that the specification
    states.

    Numbers.  The code computes on JavaScript numbers.  The embedding is
    written once, over the interface [JsNum] of the operations the code applies
    to numbers, and is read at two instances:
    - [Binary64.binary64_num]: IEEE 754 binary64 as [SpecFloat] computes it,
      which is the arithmetic of a JavaScript engine for [+ - * /],
      comparison, [Math.abs], [Math.max] and [Math.min]; [Math.atan2] and
      [Math.hypot], which ECMAScript leaves to the engine but for a table of
      exact cases, are parameters there.  This is the program.  What is
      stated of every engine ([Engines.every_engine]) uses of these two
      functions the exact cases of the table only;
    - [Exact.real_num]: the real numbers, every operation exact (no rounding,
      no NaN, no infinities), [Math.atan2] the two-argument arctangent and
      [Math.hypot] the root of the sum of squares.  This is an idealisation
      of the program, not the program: a theorem at this instance says what
      the formulas of the code compute, and the doubles follow it up to
      rounding only.  The least squares property and the recovery of a
      similarity are theorems of this kind, and the sections on rounding have
      the inputs on which the doubles differ.
    What holds of every instance (no error, the pivot divisions, the writes
    to the state, the cap on the picked points, the input left alone, the
    order of the quad under a consistent comparator) is proved of every
    instance.

    Sorting.  [Array.prototype.sort] is a stable insertion sort here.
    ECMAScript fixes the result of a sort when the comparator is consistent
    on the array (a strict weak order, [consistent]), and leaves it to the
    engine otherwise, as when a comparison is NaN; the theorems on the order
    of the quad have the consistency as a hypothesis.

    Failure.  Reading an array out of range is [None]; a function that
    dereferences such a value fails with [None] (JavaScript: a TypeError).
    A number read out of range, or from a field of the state that holds no
    number, which JavaScript would turn into NaN and compute on, is counted
    as a failure too: a result [Some] means that every read found what it
    looked for, and the theorems on [applyFourPointFit] are on states whose
    [size], [imgW] and [imgH] hold numbers, as the application keeps them.

    State.  The state object [S] is a finite map from field names to values;
    [set] merges a patch into it.  [applyFourPointFit] returns the log of the
    calls it makes, the calls of [set] with their patch among them. *)

From Stdlib Require Import Reals Lra Lia ZArith Permutation Sorted.
From Stdlib Require Import Floats.SpecFloat.
From stdpp Require Import gmap strings list sorting.

(** ** Numbers *)

Class JsNum (num : Type) : Type := {
  of_Z : Z → num;               (* integer literals, [pts.length] *)
  of_dec : Z → Z → num;         (* the decimal literal m·10^e: 1e-9, 0.05 *)
  num_add : num → num → num;
  num_sub : num → num → num;
  num_mul : num → num → num;
  num_div : num → num → num;
  num_neg : num → num;
  num_lt : num → num → bool;    (* [a < b]; [a > b] is [num_lt b a] *)
  lt_infinity : num → bool;     (* [a < Infinity] *)
  truthy : num → bool;          (* ToBoolean: false on 0 and NaN *)
  num_abs : num → num;          (* Math.abs *)
  num_max : num → num → num;    (* Math.max *)
  num_min : num → num → num;    (* Math.min *)
  atan2 : num → num → num;      (* Math.atan2 y x *)
  hypot : num → num → num;      (* Math.hypot *)
}.

Declare Scope js_scope.
Delimit Scope js_scope with js.
Notation "a + b" := (num_add a b) : js_scope.
Notation "a - b" := (num_sub a b) : js_scope.
Notation "a * b" := (num_mul a b) : js_scope.
Notation "a / b" := (num_div a b) : js_scope.
Notation "- a" := (num_neg a) : js_scope.
Notation "a <? b" := (num_lt a b) : js_scope.
Notation "a >? b" := (num_lt b a) : js_scope.
Notation "0" := (of_Z 0) : js_scope.
Notation "1" := (of_Z 1) : js_scope.
Notation "2" := (of_Z 2) : js_scope.

(** [a || b] on numbers. *)
Definition or_else {num : Type} `{!JsNum num} (a b : num) : num := if truthy a then a else b.
Notation "a || b" := (or_else a b) : js_scope.

(** [{x, y}] *)
Record Point (num : Type) : Type := Pt { px : num; py : num }.
Arguments Pt {num} _ _.
Arguments px {num} _.
Arguments py {num} _.

(** [for (let i = lo; i < lo + count; i++) body], the body may fail. *)
Fixpoint for_range {St : Type} (lo count : nat) (body : nat → St → option St) (s : St)
  : option St :=
  match count with
  | O => Some s
  | S k => s' ← body lo s; for_range (S lo) k body s'
  end.

(** ** orderQuad *)

(** The value of [best] in [orderQuad]: [Infinity] until a sum is stored. *)
Inductive running_min (num : Type) : Type :=
  | Infinity
  | Seen (v : num).
Arguments Infinity {num}.
Arguments Seen {num} _.

Section OrderQuad.
Context {num : Type} `{!JsNum num}.
(** The elements of the array are point objects; [xy] reads their
    coordinates.  On plain values [xy] is the identity. *)
Context {A : Type} (xy : A → Point num).
Local Open Scope js_scope.

(** [pts.reduce((s, p) => s + f(p), 0)] *)
Definition reduce_sum (f : A → num) (pts : list A) : num :=
  foldl (λ s p, s + f p) 0 pts.

Definition centroid (pts : list A) : num * num :=
  (reduce_sum (λ p, px (xy p)) pts / of_Z (Z.of_nat (length pts)),
   reduce_sum (λ p, py (xy p)) pts / of_Z (Z.of_nat (length pts))).

(** [Math.atan2(p.y - cy, p.x - cx)] *)
Definition angle (c : num * num) (p : A) : num :=
  atan2 (py (xy p) - snd c) (px (xy p) - fst c).

(** The comparator handed to [sort]. *)
Definition angle_cmp (c : num * num) (a b : A) : num := angle c a - angle c b.

(** [Array.prototype.sort]: a stable sort; [v] goes before the first
    element it compares below. *)
Fixpoint sort_insert (cmp : A → A → num) (v : A) (l : list A) : list A :=
  match l with
  | [] => [v]
  | e :: l' => if cmp v e <? 0 then v :: e :: l' else e :: sort_insert cmp v l'
  end.

Definition sort (cmp : A → A → num) (l : list A) : list A :=
  foldl (λ acc v, sort_insert cmp v acc) [] l.

Definition below (v : num) (best : running_min num) : bool :=
  match best with
  | Infinity => lt_infinity v
  | Seen w => v <? w
  end.

(** The [forEach] that looks for the least [p.x + p.y]: the state is
    [(start, best)], [i] the index of [p]. *)
Definition scan_step (st : nat * running_min num) (ip : nat * A)
  : nat * running_min num :=
  let v := px (xy ip.2) + py (xy ip.2) in
  if below v st.2 then (ip.1, Seen v) else st.

Definition scan_start (pts : list A) : nat :=
  (foldl scan_step (O, Infinity) (zip (seq 0 (length pts)) pts)).1.

Definition orderQuadOn (points : list A) : list (option A) :=
  let pts := points in                               (* points.slice() *)
  let c := centroid pts in
  let pts := sort (angle_cmp c) pts in
  let start := scan_start pts in
  [ pts !! start;
    pts !! ((start + 1) mod 4);
    pts !! ((start + 2) mod 4);
    pts !! ((start + 3) mod 4) ].
End OrderQuad.

Definition orderQuad {num : Type} `{!JsNum num} (points : list (Point num))
  : list (option (Point num)) :=
  orderQuadOn (λ p, p) points.

(** ** solveAffine *)

(** [{a, b, c, d, e, f}]: X = a*x + b*y + c, Y = d*x + e*y + f. *)
Record Affine (num : Type) : Type :=
  MkAffine { af_a : num; af_b : num; af_c : num; af_d : num; af_e : num; af_f : num }.
Arguments MkAffine {num} _ _ _ _ _ _.
Arguments af_a {num} _.
Arguments af_b {num} _.
Arguments af_c {num} _.
Arguments af_d {num} _.
Arguments af_e {num} _.
Arguments af_f {num} _.

Section SolveAffine.
Context {num : Type} `{!JsNum num}.
Local Open Scope js_scope.

Local Abbreviation matrix := (list (list num)).

(** [a[i][j]] *)
Definition get2 (a : matrix) (i j : nat) : option num := r ← a !! i; r !! j.

(** [a[i][j] = v] *)
Definition set2 (a : matrix) (i j : nat) (v : num) : option matrix :=
  r ← a !! i; Some (<[i := <[j := v]> r]> a).

(** [(m) => m[0].map((_, j) => m.map((r) => r[j]))] *)
Definition AT (m : matrix) : option matrix :=
  r0 ← m !! O;
  mapM (λ j, mapM (λ r : list num, r !! j) m) (seq 0 (length r0)).

(** [r.reduce((s, v, k) => s + v * n[k][j], 0)] *)
Definition reduce_dot (n : matrix) (j : nat) (r : list num) : option num :=
  foldl (λ acc kv, s ← acc; nkj ← get2 n kv.1 j; Some (s + kv.2 * nkj))
        (Some 0) (zip (seq 0 (length r)) r).

(** [(m, n) => m.map((r) => n[0].map((_, j) => r.reduce(...)))] *)
Definition mul (m n : matrix) : option matrix :=
  mapM (λ r, n0 ← n !! O;
             mapM (λ j, reduce_dot n j r) (seq 0 (length n0))) m.

(** The row search of the pivot: [r] is the row of the largest magnitude
    in column [c] among the rows from [c] on, the first such on ties. *)
Definition pivot_row (a : matrix) (n c : nat) : option nat :=
  for_range (c + 1) (n - (c + 1))
    (λ i r, aic ← get2 a i c; arc ← get2 a r c;
            Some (if num_abs aic >? num_abs arc then i else r)) c.

(** [[a[c], a[r]] = [a[r], a[c]]] *)
Definition swap_rows (a : matrix) (c r : nat) : option matrix :=
  rowr ← a !! r; rowc ← a !! c;
  Some (<[r := rowc]> (<[c := rowr]> a)).

(** [const d = a[c][c] || 1e-9] *)
Definition pivot_divisor (a : matrix) (c : nat) : option num :=
  acc ← get2 a c c; Some (acc || of_dec 1 (-9)).

(** [for (let j = 0; j < 2 * n; j++) a[c][j] /= d] *)
Definition scale_row (n c : nat) (d : num) (a : matrix) : option matrix :=
  for_range 0 (2 * n) (λ j a, v ← get2 a c j; set2 a c j (v / d)) a.

(** The loop over [i] that clears column [c] in the other rows. *)
Definition eliminate (n c : nat) (a : matrix) : option matrix :=
  for_range 0 n
    (λ i a, if Nat.eqb i c then Some a else
       f ← get2 a i c;
       for_range 0 (2 * n)
         (λ j a, aij ← get2 a i j; acj ← get2 a c j; set2 a i j (aij - f * acj)) a)
    a.

(** The body of the loop over the columns [c]. *)
Definition inv_step (n c : nat) (a : matrix) : option matrix :=
  r ← pivot_row a n c;
  a ← swap_rows a c r;
  d ← pivot_divisor a c;
  a ← scale_row n c d a;
  eliminate n c a.

Definition inv (m : matrix) : option matrix :=
  let n := length m in
  let a := imap (λ i r, r ++ map (λ j, if Nat.eqb i j then 1 else 0) (seq 0 n)) m in
  a ← for_range 0 n (inv_step n) a;
  Some (map (drop n) a).

(** The loop that builds [A] and [B], two rows for each correspondence. *)
Definition design (from to : list (Point num)) : option (matrix * list num) :=
  for_range 0 4
    (λ i AB, p ← from !! i; q ← to !! i;
             Some (AB.1 ++ [[px p; py p; 1; 0; 0; 0]] ++ [[0; 0; 0; px p; py p; 1]],
                   AB.2 ++ [px q] ++ [py q]))
    ([], []).

Definition solveAffine (from to : list (Point num)) : option (Affine num) :=
  AB ← design from to;
  ATm ← AT AB.1;
  ATA ← mul ATm AB.1;
  ATAi ← inv ATA;
  ATB ← mul ATm (map (λ v, [v]) AB.2);
  X ← mul ATAi ATB;
  X ← mapM (λ r : list num, r !! O) X;
  match X with
  | a :: b :: c :: d :: e :: f :: _ => Some (MkAffine a b c d e f)
  | _ => None
  end.
End SolveAffine.

(** ** decomposeAffineToTRS *)

(** [THREE.Vector3] *)
Record Vector3 (num : Type) : Type := Vec3 { v3x : num; v3y : num; v3z : num }.
Arguments Vec3 {num} _ _ _.
Arguments v3x {num} _.
Arguments v3y {num} _.
Arguments v3z {num} _.

Record Pose (num : Type) : Type :=
  MkPose { position : Vector3 num; rotationZ : num; scale : Vector3 num }.
Arguments MkPose {num} _ _ _.
Arguments position {num} _.
Arguments rotationZ {num} _.
Arguments scale {num} _.

Definition decomposeAffineToTRS {num : Type} `{!JsNum num} (aff : Affine num) : Pose num :=
  let position := Vec3 (af_c aff) (af_f aff) (of_Z 0) in
  let sx := hypot (af_a aff) (af_d aff) in
  let sy := hypot (af_b aff) (af_e aff) in
  let rotationZ := atan2 (af_d aff) (af_a aff) in
  MkPose position rotationZ (Vec3 sx sy (of_Z 1)).

(** ** The application state and the fit orchestration *)

(** The values of the fields of the state object [S].  The fit reads and
    writes numbers, booleans and the array of picked points; every other
    value (strings, files, arrays, nested objects) is opaque to it. *)
Inductive value (num : Type) : Type :=
  | VNum (n : num)
  | VBool (b : bool)
  | VPoints (ps : list (Point num))
  | VOpaque (tag : string).
Arguments VNum {num} _.
Arguments VBool {num} _.
Arguments VPoints {num} _.
Arguments VOpaque {num} _.

(** What the body of the [App] component closes over besides [S]. *)
Record Env (num : Type) : Type := MkEnv {
  innerWidth : option num;      (* window.innerWidth, when there is a window *)
  textWorldSize : num * num;    (* the {w, h} that getTextOnlyWorldSize() returns *)
}.
Arguments MkEnv {num} _ _.
Arguments innerWidth {num} _.
Arguments textWorldSize {num} _.

(** The calls that [applyFourPointFit] makes, in order. *)
Inductive call (num : Type) : Type :=
  | CallOrderQuad
  | CallSolveAffine
  | CallDecompose
  | CallSet (patch : gmap string (value num)).
Arguments CallOrderQuad {num}.
Arguments CallSolveAffine {num}.
Arguments CallDecompose {num}.
Arguments CallSet {num} _.

(** A computation that logs its calls and may throw: the log, and the result
    unless it threw. *)
Definition traced (num A : Type) : Type := (list (call num) * option A)%type.

Definition tret {num A : Type} (a : A) : traced num A := ([], Some a).

(** The call [c], whose outcome is [r]. *)
Definition invoke {num A : Type} (c : call num) (r : option A) : traced num A :=
  ([c], r).

(** A read that fails throws without a call. *)
Definition must {num A : Type} (r : option A) : traced num A := ([], r).

Definition tbind {num A B : Type} (m : traced num A) (k : A → traced num B)
  : traced num B :=
  match m.2 with
  | Some a => (m.1 ++ (k a).1, (k a).2)
  | None => (m.1, None)
  end.

Notation "x <~ m ;; k" := (tbind m (λ x, k))
  (at level 100, m at next level, right associativity).

(** [(patch) => setS((prev) => ({ ...prev, ...patch }))]: the updater that
    [set] queues, applied to the state [prev] it is run on. *)
Definition set {num : Type} (patch prev : gmap string (value num))
  : gmap string (value num) :=
  patch ∪ prev.

(** The state after the queued updaters of a log have run, in order. *)
Definition run_calls {num : Type} (log : list (call num))
    (prev : gmap string (value num)) : gmap string (value num) :=
  foldl (λ st c, match c with CallSet patch => set patch st | _ => st end) prev log.

Section App.
Context {num : Type} `{!JsNum num}.
Local Open Scope js_scope.
Local Abbreviation state := (gmap string (value num)).

(** [S.k] where the code uses it as a number. *)
Definition num_field (S : state) (k : string) : option num :=
  match S !! k with Some (VNum n) => Some n | _ => None end.

(** [S.fitPoints] *)
Definition points_field (S : state) (k : string) : option (list (Point num)) :=
  match S !! k with Some (VPoints ps) => Some ps | _ => None end.

(** [{ x: e.clientX - rect.left, y: e.clientY - rect.top }] appended to
    [points || []], and [.slice(0, 4)]. *)
Definition addPoint (points : option (list (Point num)))
    (clientX clientY left top : num) : list (Point num) :=
  take 4 (default [] points ++ [Pt (clientX - left) (clientY - top)]).

(** [onPointsChange]: [(pts) => set({ fitPoints: pts })] *)
Definition onPointsChange (pts : list (Point num)) : state :=
  {[ "fitPoints" := VPoints pts ]}.

(** [maxW], [dispW] and [dispH] of the component body. *)
Definition maxW (env : Env num) : num :=
  num_min (of_Z 1400)
    (match innerWidth env with
     | Some w => w * of_dec 75 (-2)
     | None => of_Z 1000
     end).

Definition dispW (env : Env num) (imgW : num) : num :=
  num_max (of_Z 640) (num_min (maxW env) imgW).

Definition dispH (env : Env num) (imgW imgH : num) : num :=
  imgH * (dispW env imgW / imgW).

(** The four corners [src] of the source rectangle. *)
Definition sourceCorners (W H : num) : list (Point num) :=
  [ Pt (- W / 2) (- H / 2);
    Pt (W / 2) (- H / 2);
    Pt (W / 2) (H / 2);
    Pt (- W / 2) (H / 2) ].

Definition screenToWorld (dispW dispH imgW imgH : num) (pt : Point num) : Point num :=
  let planeW := of_Z 120 in
  let sx := (px pt / dispW) * planeW - planeW / 2 in
  let planeH := planeW * (imgH / imgW) in
  let sy := - (py pt / dispH) * planeH + planeH / 2 in
  Pt sx sy.

(** The object handed to [set] at the end of the fit. *)
Definition fitPatch (pose : Pose num) : state :=
  {[ "signTX" := VNum (v3x (position pose));
     "signTY" := VNum (v3y (position pose));
     "signRZ" := VNum (rotationZ pose);
     "signScale" :=
       VNum (num_max (of_dec 5 (-2))
                     ((v3x (scale pose) + v3y (scale pose)) / 2 || 1));
     "fitMode" := VBool false;
     "fitPoints" := VPoints [] ]}.

Definition applyFourPointFit (env : Env num) (S : state) : traced num unit :=
  fitPoints <~ must (points_field S "fitPoints") ;;
  if negb (Nat.eqb (length fitPoints) 4) then tret tt else
  quad <~ invoke CallOrderQuad (Some (orderQuad fitPoints)) ;;
  size <~ must (num_field S "size") ;;
  let pad := size * of_dec 5 (-1) in
  let W := (env.(textWorldSize).1 || 1) + pad * 2 in
  let H := (env.(textWorldSize).2 || 1) + pad * 2 in
  let src := sourceCorners W H in
  imgW <~ must (num_field S "imgW") ;;
  imgH <~ must (num_field S "imgH") ;;
  let dW := dispW env imgW in
  let dH := dispH env imgW imgH in
  (* [tl, tr, br, bl].map(screenToWorld): an undefined entry throws *)
  tgt <~ must (mapM (λ o : option (Point num),
                       pt ← o; Some (screenToWorld dW dH imgW imgH pt)) quad) ;;
  aff <~ invoke CallSolveAffine (solveAffine src tgt) ;;
  pose <~ invoke CallDecompose (Some (decomposeAffineToTRS aff)) ;;
  invoke (CallSet (fitPatch pose)) (Some tt).
End App.

(** ** The two readings of the numbers *)

(** *** Exact arithmetic: the real numbers *)
Module Exact.
Local Open Scope R_scope.

(** The angle of the point [(x, y)], in (-PI, PI]. *)
Definition Ratan2 (y x : R) : R :=
  if Rlt_dec 0 x then atan (y / x)
  else if Rlt_dec x 0 then
    (if Rle_dec 0 y then atan (y / x) + PI else atan (y / x) - PI)
  else if Rlt_dec 0 y then PI / 2
  else if Rlt_dec y 0 then - PI / 2
  else 0.

(** m·10^e *)
Definition Rdec (m e : Z) : R :=
  if (0 <=? e)%Z then IZR (m * 10 ^ e) else IZR m / IZR (10 ^ (- e)).

Definition Rltb (a b : R) : bool := if Rlt_dec a b then true else false.

#[export] Instance real_num : JsNum R := {|
  of_Z := IZR;
  of_dec := Rdec;
  num_add := Rplus;
  num_sub := Rminus;
  num_mul := Rmult;
  num_div := Rdiv;
  num_neg := Ropp;
  num_lt := Rltb;
  lt_infinity := λ _, true;
  truthy := λ a, if Req_dec_T a 0 then false else true;
  num_abs := Rabs;
  num_max := Rmax;
  num_min := Rmin;
  atan2 := Ratan2;
  hypot := λ a b, sqrt (a * a + b * b);
|}.
End Exact.

(** *** IEEE 754 binary64 *)
Module Binary64.
Definition prec : Z := 53.
Definition emax : Z := 1024.

Definition b64_of_Z (z : Z) : spec_float := binary_normalize prec emax z 0 false.

(** The double nearest to m·10^e, for the literals of the code: |m| and
    10^|e| are doubles themselves, so one correctly rounded operation
    gives it. *)
Definition b64_of_dec (m e : Z) : spec_float :=
  if (0 <=? e)%Z then b64_of_Z (m * 10 ^ e)
  else SFdiv prec emax (b64_of_Z m) (b64_of_Z (10 ^ (- e))).

Definition is_nan (a : spec_float) : bool :=
  match a with S754_nan => true | _ => false end.

(** ToBoolean *)
Definition b64_truthy (a : spec_float) : bool :=
  match a with S754_zero _ | S754_nan => false | _ => true end.

(** Math.max: NaN if an argument is NaN, and +0 above -0. *)
Definition b64_max (a b : spec_float) : spec_float :=
  if is_nan a || is_nan b then S754_nan
  else if SFltb a b then b
  else if SFltb b a then a
  else match a, b with
       | S754_zero true, S754_zero false => b
       | _, _ => a
       end.

(** Math.min: NaN if an argument is NaN, and -0 below +0. *)
Definition b64_min (a b : spec_float) : spec_float :=
  if is_nan a || is_nan b then S754_nan
  else if SFltb a b then a
  else if SFltb b a then b
  else match a, b with
       | S754_zero false, S754_zero true => b
       | _, _ => a
       end.

(** [Math.atan2] and [Math.hypot] are approximations that the language
    leaves to the engine: they are parameters of this reading. *)
Definition binary64_num (Matan2 Mhypot : spec_float → spec_float → spec_float)
  : JsNum spec_float := {|
  of_Z := b64_of_Z;
  of_dec := b64_of_dec;
  num_add := SFadd prec emax;
  num_sub := SFsub prec emax;
  num_mul := SFmul prec emax;
  num_div := SFdiv prec emax;
  num_neg := SFopp;
  num_lt := SFltb;
  lt_infinity := λ a, SFltb a (S754_infinity false);
  truthy := b64_truthy;
  num_abs := SFabs;
  num_max := b64_max;
  num_min := b64_min;
  atan2 := Matan2;
  hypot := Mhypot;
|}.
End Binary64.

(** The state that [useState] starts from.  The fields the fit never reads
    as numbers or points are kept as opaque values. *)
Definition initialState {num : Type} `{!JsNum num} : gmap string (value num) :=
  list_to_map [
    ("file", VOpaque "null");
    ("imgW", VNum (of_Z 1600));
    ("imgH", VNum (of_Z 900));
    ("signTX", VNum (of_Z 0));
    ("signTY", VNum (of_Z 0));
    ("signRZ", VNum (of_Z 0));
    ("signScale", VNum (of_Z 1));
    ("activeTool", VOpaque "lines");
    ("signType", VOpaque "pan");
    ("showLettersOnPan", VBool false);
    ("text", VOpaque "DEFAULT_TEXT");
    ("fontUrl", VOpaque "FONT_OPTIONS.Helvetiker");
    ("style", VOpaque "front");
    ("size", VNum (of_Z 32));
    ("lineSpacing", VNum (of_dec 11 (-1)));
    ("faceColor", VOpaque "#ffffff");
    ("trimColor", VOpaque "#222222");
    ("haloStrength", VNum (of_dec 18 (-1)));
    ("haloColor", VOpaque "#ffffff");
    ("glowSize", VNum (of_dec 8 (-2)));
    ("bloomRadius", VNum (of_dec 6 (-1)));
    ("haloOffsetX", VNum (of_Z 0));
    ("haloOffsetY", VNum (of_Z 0));
    ("timeOfDay", VNum (of_Z 0));
    ("showRaceway", VBool false);
    ("racewayColor", VOpaque "#222222");
    ("racewayHeightUnits", VNum (num_mul (of_Z 32) (of_dec 35 (-2))));
    ("racewayPadUnits", VNum (of_Z 6));
    ("racewayYOffsetUnits", VNum (of_Z 0));
    ("racewayZOrder", VOpaque "behind");
    ("perLineRaceway", VBool true);
    ("perLinePadUnits", VOpaque "[]");
    ("perLineHeightUnits", VOpaque "[]");
    ("perLineWidthScale", VOpaque "[]");
    ("showPanel", VBool true);
    ("panelColor", VOpaque "#cfcfcf");
    ("panelDepth", VNum (of_dec 2 (-1)));
    ("panelPadX", VNum (of_Z 6));
    ("panelPadY", VNum (of_Z 6));
    ("bldTiltX", VNum (of_Z 0));
    ("bldTiltY", VNum (of_Z 0));
    ("enableLineSizers", VBool true);
    ("activeLineIndex", VNum (of_Z 0));
    ("transformMode", VOpaque "translate");
    ("linePoses", VOpaque "[]");
    ("snapEnabled", VBool true);
    ("snapStep", VNum (of_dec 5 (-1)));
    ("snapAngleDeg", VNum (of_Z 5));
    ("logoFile", VOpaque "null");
    ("logoBaseWidth", VNum (of_Z 12));
    ("logoTransform", VOpaque "{ x: 0, y: 0, rot: 0, scl: 1 }");
    ("logoGizmoMode", VOpaque "translate");
    ("fitPoints", VPoints []);
    ("fitMode", VBool false)
  ].

(** ** The loops of [solveAffine] as operations on rows and matrices

    The functional forms that the loops are proved equal to below. *)

#[global] Instance num_inhabited {num : Type} `{!JsNum num} : Inhabited num :=
  populate (of_Z 0).

Section FunctionalForms.
Context {num : Type} `{!JsNum num}.
Local Abbreviation matrix := (list (list num)).

(** A matrix of [r] rows and [c] columns. *)
Definition shape (r c : nat) (a : matrix) : Prop :=
  length a = r ∧ Forall (λ row, length row = c) a.

Definition column (j : nat) (m : matrix) : list num := map (λ r, r !!! j) m.

Definition transpose (c : nat) (m : matrix) : matrix :=
  map (λ j, column j m) (seq 0 c).

(** The sum that [reduce] accumulates, from the left. *)
Definition dot (u v : list num) : num :=
  foldl (λ s vw, s + vw.1 * vw.2)%js (of_Z 0) (zip u v).

Definition mat_mul (c : nat) (m n : matrix) : matrix :=
  map (λ r, map (λ j, dot r (column j n)) (seq 0 c)) m.

(** [row - f * rowc], entry by entry. *)
Definition axpy (f : num) (rowc row : list num) : list num :=
  zip_with (λ x y, x - f * y)%js row rowc.

(** What the elimination does to a row other than the pivot row. *)
Definition clear_entry (c : nat) (rowc row : list num) : list num :=
  match row !! c with
  | Some f => axpy f rowc row
  | None => row
  end.

(** The augmented matrix [m | I] that [inv] starts from. *)
Definition augment (m : matrix) : matrix :=
  imap (λ i r, r ++ map (λ j, if Nat.eqb i j then of_Z 1 else of_Z 0)
                        (seq 0 (length m))) m.

(** One column step of [inv] as row operations: swap rows [c] and [r],
    divide the new row [c] by the pivot, clear column [c] elsewhere. *)
Definition reduce_column (c r : nat) (rowc rowr : list num) (p : num)
    (a : matrix) : matrix :=
  let rowc' := map (λ v, v / (p || of_dec 1 (-9)))%js rowr in
  imap (λ i row, if Nat.eqb i c then row else clear_entry c rowc' row)
       (<[c := rowc']> (<[r := rowc]> (<[c := rowr]> a))).

(** The design matrix [A]: two rows for each correspondence. *)
Definition design_rows (from : list (Point num)) : matrix :=
  flat_map (λ p, [ [px p; py p; of_Z 1; of_Z 0; of_Z 0; of_Z 0];
                   [of_Z 0; of_Z 0; of_Z 0; px p; py p; of_Z 1] ]) from.

(** The vector [B] of the target coordinates. *)
Definition targets (to : list (Point num)) : list num :=
  flat_map (λ q, [px q; py q]) to.

Definition affine_of (X : list num) : option (Affine num) :=
  match X with
  | a :: b :: c :: d :: e :: f :: _ => Some (MkAffine a b c d e f)
  | _ => None
  end.

End FunctionalForms.

(** The laws of the numbers that the bounds on the result rest on. *)
Class JsNumLaws (num : Type) `{!JsNum num} : Prop := {
  truthy_one : truthy (of_Z 1) = true;
  truthy_eps : truthy (of_dec 1 (-9)) = true;
  max_at_least : ∀ lo v : num,
    truthy v = true → num_max lo v = lo ∨ num_lt lo (num_max lo v) = true;
}.

(** The six fields that the fit writes. *)
Definition fitFields : gset string :=
  {[ "signTX"; "signTY"; "signRZ"; "signScale"; "fitMode"; "fitPoints" ]}.

(** ** orderQuad on the store

    Arrays and point objects are references into a store; an array holds
    the references of its elements.  This is [orderQuad] with its copy, its
    in-place sort and its reads written out, to tell what it leaves
    untouched. *)

Record store (num : Type) : Type := MkStore {
  arrays : gmap nat (list nat);          (* the elements of each array *)
  objects : gmap nat (Point num);        (* the fields of each point object *)
}.
Arguments MkStore {num} _ _.
Arguments arrays {num} _.
Arguments objects {num} _.

Section OrderQuadStore.
Context {num : Type} `{!JsNum num}.

Definition orderQuad_store (points : nat) (σ : store num)
  : option (list (option nat) * store num) :=
  elems ← arrays σ !! points;
  (* const pts = points.slice(): a new array with the same elements *)
  let pts := fresh (dom (arrays σ)) in
  let σ := MkStore (<[pts := elems]> (arrays σ)) (objects σ) in
  (* the reduce reads p.x and p.y of every element *)
  objs ← mapM (λ r, objects σ !! r) elems;
  let c := centroid snd (zip elems objs) in
  (* pts.sort(...) sorts the array pts in place *)
  let sorted := sort (angle_cmp snd c) (zip elems objs) in
  let σ := MkStore (<[pts := map fst sorted]> (arrays σ)) (objects σ) in
  let start := scan_start snd sorted in
  (* the array literal that is returned *)
  Some ([ fst <$> sorted !! start;
          fst <$> sorted !! ((start + 1) mod 4);
          fst <$> sorted !! ((start + 2) mod 4);
          fst <$> sorted !! ((start + 3) mod 4) ], σ).
End OrderQuadStore.

(** ** The vocabulary of the least-squares statement, over the reals *)

Module LeastSquares.
Import Exact.
Local Open Scope R_scope.

Definition unit_vector (n i : nat) : list R :=
  map (λ j, if Nat.eqb i j then 1 else 0) (seq 0 n).

Definition identity (n : nat) : list (list R) :=
  map (λ i, unit_vector n i) (seq 0 n).

(** The product of a matrix and a column vector. *)
Definition mat_vec (m : list (list R)) (v : list R) : list R :=
  map (λ row, dot row v) m.

(** [mi] is the inverse of the [n] by [n] matrix [m]. *)
Definition inverse_of (n : nat) (m mi : list (list R)) : Prop :=
  shape n n mi ∧ mat_mul n mi m = identity n ∧ mat_mul n m mi = identity n.

(** What the column loop of [inv] keeps true of the augmented matrix [a]
    when it has done the columns before [c], for the [n] by [n] matrix [m]
    to invert: each row [l | r] of [a] satisfies l·x = r·(m x) for every
    vector x; no vector other than zero is annihilated by all the left
    halves; and the columns before [c] are those of the identity. *)
Definition gj_invariant (n : nat) (m : list (list R)) (c : nat)
    (a : list (list R)) : Prop :=
  shape n (2 * n) a
  ∧ (∀ x row, length x = n → row ∈ a →
       dot row (x ++ map Ropp (mat_vec m x)) = 0)
  ∧ (∀ x, length x = n → (∀ row, row ∈ a → dot row x = 0) →
       Forall (λ y, y = 0) x)
  ∧ (∀ i k row, (k < c)%nat → a !! i = Some row →
       row !! k = Some (if Nat.eqb i k then 1 else 0)).



(** The inverse of AᵗA for the corners of a centred rectangle. *)
Definition rectangle_inverse (W H : R) : list (list R) :=
  [ [1 / (W * W); 0; 0; 0; 0; 0];
    [0; 1 / (H * H); 0; 0; 0; 0];
    [0; 0; 1 / 4; 0; 0; 0];
    [0; 0; 0; 1 / (W * W); 0; 0];
    [0; 0; 0; 0; 1 / (H * H); 0];
    [0; 0; 0; 0; 0; 1 / 4] ].



(** The corners of the centred rectangle in the order top-left, top-right,
    bottom-right, bottom-left, in a space where y points up: the top has
    the larger y. *)
Definition corners_y_up (W H : R) : list (Point R) :=
  [ Pt (- W / 2) (H / 2);
    Pt (W / 2) (H / 2);
    Pt (W / 2) (- H / 2);
    Pt (- W / 2) (- H / 2) ].

(** The same four names in a space where y points down, as on the
    screen: the top has the smaller y. *)
Definition corners_y_down (W H : R) : list (Point R) :=
  [ Pt (- W / 2) (- H / 2);
    Pt (W / 2) (- H / 2);
    Pt (W / 2) (H / 2);
    Pt (- W / 2) (H / 2) ].
End LeastSquares.

(** ** Inputs to run the functions on *)

Module Examples.
Import Exact.
Local Open Scope R_scope.

(** Four clicks on the photograph, in display pixels. *)
Definition fourClicks : list (Point R) :=
  [Pt 100 100; Pt 500 120; Pt 480 300; Pt 90 280].

(** A state in which these four points have been picked. *)
Definition pickedState : gmap string (value R) :=
  <["fitPoints" := VPoints fourClicks]> (<["fitMode" := VBool true]> initialState).

(** No window, and the text group not mounted: getTextOnlyWorldSize()
    returns {w: 1, h: 1}. *)
Definition noWindow : Env R := MkEnv None (1, 1).

(** A store with the array of the four clicks at reference 0. *)
Definition clicksStore : store R :=
  MkStore {[ 0%nat := [10; 11; 12; 13]%nat ]}
          (list_to_map [ (10%nat, Pt 100 100); (11%nat, Pt 500 120);
                         (12%nat, Pt 480 300); (13%nat, Pt 90 280) ]).


(** A point with whole coordinates, in binary64. *)
Definition b64_point (x y : Z) : Point spec_float :=
  Pt (Binary64.b64_of_Z x) (Binary64.b64_of_Z y).

End Examples.

(** ** The order that [orderQuad] sorts by *)

Section Comparator.
Context {num : Type} `{!JsNum num} {A : Type} (xy : A → Point num).
Local Open Scope js_scope.

(** The comparator of [orderQuad], with the centroid [c], puts [a] before
    [b]: the number it returns is below zero. *)
Definition before (c : num * num) (a b : A) : Prop :=
  (angle_cmp xy c a b <? 0) = true.

(** A comparator that [Array.prototype.sort] can rely on (ECMAScript: a
    consistent comparator): on the elements of the array, "before" is a
    strict weak order.  The result of the sort is then the one stable
    arrangement in that order, which [sort] computes; with another
    comparator (one that meets a NaN) the order is left to the engine,
    and [sort] says nothing of it. *)
Definition consistent (R : A → A → Prop) (l : list A) : Prop :=
  (∀ a b, a ∈ l → b ∈ l → R a b → ¬ R b a)
  ∧ (∀ a b c, a ∈ l → b ∈ l → c ∈ l → R a b → R b c → R a c)
  ∧ (∀ a b c, a ∈ l → b ∈ l → c ∈ l →
       ¬ R a b → ¬ R b a → ¬ R b c → ¬ R c b → ¬ R a c ∧ ¬ R c a).
End Comparator.

(** The laws of [<] that the search for the least [x + y] rests on: a
    strict order, with [Infinity] above what is below it. *)
Class JsOrderLaws (num : Type) `{!JsNum num} : Prop := {
  lt_irrefl : ∀ a : num, num_lt a a = false;
  lt_trans : ∀ a b c : num, num_lt a b = true → num_lt b c = true → num_lt a c = true;
  lt_below_infinity : ∀ a b : num,
    num_lt a b = true → lt_infinity b = true → lt_infinity a = true;
  lt_infinity_top : ∀ a b : num,
    lt_infinity a = false → lt_infinity b = false → num_lt a b = false;
}.

(** ** The engines

    [Math.atan2] and [Math.hypot] are approximations that ECMAScript leaves
    to the engine, but for a few arguments at which it fixes the result.  A
    statement about the program in binary64 is made of every engine that
    returns these. *)
Module Engines.
Import Binary64.
Local Open Scope R_scope.

(** ECMAScript, Math.atan2(y, x): with y = +0, the result is +0 when x is
    +0 or above zero. *)
Definition ecma_atan2 (Matan2 : spec_float → spec_float → spec_float) : Prop :=
  ∀ x, x = S754_zero false ∨ SFltb (S754_zero false) x = true →
       Matan2 (S754_zero false) x = S754_zero false.

(** ECMAScript, Math.hypot: +0 when every argument is a zero. *)
Definition ecma_hypot (Mhypot : spec_float → spec_float → spec_float) : Prop :=
  ∀ sa sb, Mhypot (S754_zero sa) (S754_zero sb) = S754_zero false.

(** [P] holds of the program run in binary64 on every such engine. *)
Definition every_engine (P : JsNum spec_float → Prop) : Prop :=
  ∀ Matan2 Mhypot, ecma_atan2 Matan2 → ecma_hypot Mhypot →
    P (binary64_num Matan2 Mhypot).

(** The real number that a finite double is. *)
Definition b64_to_R (a : spec_float) : R :=
  match a with
  | S754_finite s m e =>
      let v := if (0 <=? e)%Z then IZR (Z.pos m * 2 ^ e)
               else IZR (Z.pos m) / IZR (2 ^ (- e)) in
      if s then - v else v
  | _ => 0
  end.

Definition point_to_R (p : Point spec_float) : Point R :=
  Pt (b64_to_R (px p)) (b64_to_R (py p)).

(** The double [m · 2^e], for m above zero. *)
Definition b64 (m : positive) (e : Z) : spec_float := S754_finite false m e.
End Engines.

(** ** Inputs on which rounding shows *)

Module Rounding.
Import Binary64 Engines.

(** 1 and the double after it, 1 + 2⁻⁵². *)
Definition one : spec_float := b64_of_Z 1.
Definition after_one : spec_float := b64 4503599627370497 (-52).

(** Two points one step of the doubles apart, each taken twice. *)
Definition nearQuad : list (Point spec_float) :=
  [Pt one one; Pt after_one one; Pt one one; Pt after_one one].



(** Four points whose y coordinates are 1, 2⁻⁵³, 2⁻⁵³ and 0, and the
    same four with the first moved to the third place. *)
Definition sumQuad : list (Point spec_float) :=
  [ Pt (b64_of_Z 0) one; Pt (b64_of_Z 1) (b64 4503599627370496 (-105));
    Pt (b64_of_Z 2) (b64 4503599627370496 (-105)); Pt (b64_of_Z 3) (b64_of_Z 0) ].

Definition sumQuad' : list (Point spec_float) :=
  [ Pt (b64_of_Z 1) (b64 4503599627370496 (-105));
    Pt (b64_of_Z 2) (b64 4503599627370496 (-105));
    Pt (b64_of_Z 0) one; Pt (b64_of_Z 3) (b64_of_Z 0) ].

End Rounding.

(** ** The lines of the overlay *)

Section Overlay.
Context {num : Type} `{!JsNum num}.

(** The [<line>] elements of [FourPointFitOverlay], one entry for each
    point: [None] where the code renders [null]. *)
Definition overlayLines (points : list (Point num))
  : list (option (Point num * Point num)) :=
  if (2 <=? length points)%nat then
    imap (λ i p, match points !! ((i + 1) mod length points)%nat with
                 | Some q => if (i <? length points - 1)%nat then Some (p, q) else None
                 | None => None
                 end) points
  else [].
End Overlay.

(** * Properties *)

(** ** Loops over rows, as list operations *)

Lemma take_S_insert {A : Type} (l : list A) (i : nat) (x : A) :
  i < length l → take (S i) (<[i := x]> l) = take i l ++ [x].
Proof.
  revert i. induction l as [|y l IH]; intros [|i] Hi; simpl in *; try lia; [done|].
  f_equal. apply IH. lia.
Qed.

Lemma drop_S_insert {A : Type} (l : list A) (i : nat) (x : A) :
  drop (S i) (<[i := x]> l) = drop (S i) l.
Proof. revert i. induction l as [|y l IH]; intros [|i]; simpl; auto. Qed.

Section Loops.
Context {num : Type} `{!JsNum num}.
Local Abbreviation matrix := (list (list num)).

Lemma for_range_ext {St : Type} (f g : nat → St → option St) cnt lo s :
  (∀ i s, lo ≤ i < lo + cnt → f i s = g i s) →
  for_range lo cnt f s = for_range lo cnt g s.
Proof.
  revert lo s. induction cnt as [|cnt IH]; intros lo s Hfg; simpl; [done|].
  rewrite Hfg by lia. destruct (g lo s) as [s'|]; simpl; [|done].
  apply IH. intros i s0 Hi. apply Hfg. lia.
Qed.

(** A loop with an invariant: it does not fail when its body keeps the
    invariant and does not fail under it. *)
Lemma for_range_inv {St : Type} (P : nat → St → Prop) (f : nat → St → option St)
    cnt lo s :
  P lo s →
  (∀ i s, lo ≤ i < lo + cnt → P i s → ∃ s', f i s = Some s' ∧ P (S i) s') →
  ∃ s', for_range lo cnt f s = Some s' ∧ P (lo + cnt) s'.
Proof.
  revert lo s. induction cnt as [|cnt IH]; intros lo s HP Hstep; simpl.
  - exists s. by rewrite Nat.add_0_r.
  - destruct (Hstep lo s) as (s1 & -> & HP1); [lia|done|]. simpl.
    destruct (IH (S lo) s1 HP1) as (s2 & -> & HP2).
    + intros i s0 Hi. apply Hstep. lia.
    + exists s2. split; [done|]. by replace (lo + S cnt) with (S lo + cnt) by lia.
Qed.

Lemma get2_Some (a : matrix) i j row :
  a !! i = Some row → get2 a i j = row !! j.
Proof. intros Hr. unfold get2. by rewrite Hr. Qed.

Lemma set2_Some (a : matrix) i j v row :
  a !! i = Some row → set2 a i j v = Some (<[i := <[j := v]> row]> a).
Proof. intros Hr. unfold set2. by rewrite Hr. Qed.

(** [for (j = lo; j < row.length; j++) a[i][j] = g(j, a[i][j])], where [g]
    does not read row [i] of [a]. *)
Lemma row_loop (g : nat → num → num) (a : matrix) i :
  ∀ cnt lo row,
    a !! i = Some row → lo + cnt = length row →
    for_range lo cnt (λ j a, v ← get2 a i j; set2 a i j (g j v)) a
    = Some (<[i := take lo row ++ imap (λ k v, g (lo + k) v) (drop lo row)]> a).
Proof.
  intros cnt. revert a. induction cnt as [|cnt IH]; intros a lo row Hrow Hlen; simpl.
  - rewrite drop_ge by lia. rewrite take_ge by lia. simpl.
    rewrite app_nil_r. by rewrite list_insert_id.
  - destruct (lookup_lt_is_Some_2 row lo) as [v Hv]; [lia|].
    rewrite (get2_Some _ _ _ _ Hrow), Hv. simpl.
    rewrite (set2_Some _ _ _ _ _ Hrow).
    assert (Hi : i < length a) by (by eapply lookup_lt_Some).
    simpl. rewrite (IH _ (S lo) (<[lo := g lo v]> row)).
    + f_equal. rewrite list_insert_insert_eq. f_equal.
      rewrite (drop_S row v lo Hv). simpl.
      rewrite Nat.add_0_r, take_S_insert, drop_S_insert by lia.
      rewrite <- app_assoc. simpl. f_equal. f_equal.
      apply imap_ext. intros k x _. simpl. f_equal. lia.
    + by rewrite list_lookup_insert_eq.
    + rewrite length_insert. lia.
Qed.

(** Two bodies that agree under an invariant of the second. *)
Lemma for_range_ext_inv {St : Type} (P : St → Prop) (f g : nat → St → option St)
    cnt lo s :
  P s →
  (∀ i s, lo ≤ i < lo + cnt → P s →
          f i s = g i s ∧ ∀ s', g i s = Some s' → P s') →
  for_range lo cnt f s = for_range lo cnt g s.
Proof.
  revert lo s. induction cnt as [|cnt IH]; intros lo s HP Hfg; simpl; [done|].
  destruct (Hfg lo s) as [-> Hnext]; [lia|done|].
  destruct (g lo s) as [s'|]; simpl; [|done].
  apply IH; [by apply Hnext|]. intros i s0 Hi. apply Hfg. lia.
Qed.

Lemma imap_zip_with (f : num → num → num) (row rowc : list num) :
  length row = length rowc →
  imap (λ k v, match rowc !! k with Some w => f v w | None => v end) row
  = zip_with f row rowc.
Proof.
  revert rowc. induction row as [|x row IH]; intros [|y rowc] Hlen;
    simpl in *; try lia; [done|].
  f_equal. apply IH. lia.
Qed.

Lemma scale_row_spec (n c : nat) (d : num) (a : matrix) (rowc : list num) :
  a !! c = Some rowc → length rowc = 2 * n →
  scale_row n c d a = Some (<[c := map (λ v, v / d)%js rowc]> a).
Proof.
  intros Hc Hlen. unfold scale_row.
  rewrite (row_loop (λ _ v, v / d)%js a c (2 * n) 0 rowc Hc) by lia.
  simpl. rewrite drop_0. f_equal. f_equal. apply (imap_const (λ v, v / d)%js).
Qed.

(** The loop over [j] for one row [i] other than [c]. *)
Lemma clear_row_spec (n c i : nat) (f : num) (a : matrix) (rowc row : list num) :
  i ≠ c → a !! c = Some rowc → a !! i = Some row →
  length rowc = 2 * n → length row = 2 * n →
  for_range 0 (2 * n)
    (λ j a, aij ← get2 a i j; acj ← get2 a c j; set2 a i j (aij - f * acj)%js) a
  = Some (<[i := axpy f rowc row]> a).
Proof.
  intros Hic Hc Hi Hlc Hlr.
  rewrite (for_range_ext_inv (λ a' : matrix, a' !! c = Some rowc) _
    (λ j a, v ← get2 a i j;
            set2 a i j (match rowc !! j with Some w => v - f * w | None => v end)%js)).
  - rewrite (row_loop _ a i (2 * n) 0 row Hi) by lia. simpl.
    rewrite drop_0. unfold axpy.
    by rewrite <- (imap_zip_with (λ x y, x - f * y)%js row rowc) by lia.
  - done.
  - intros j a' Hj Ha'. split.
    + unfold get2. rewrite Ha'. simpl.
      destruct (lookup_lt_is_Some_2 rowc j) as [w Hw]; [lia|].
      rewrite Hw. destruct (a' !! i) as [r'|]; simpl; [|done].
      destruct (r' !! j); simpl; done.
    + intros s'. unfold get2, set2.
      destruct (a' !! i) as [r'|]; simpl; [|done].
      destruct (r' !! j); simpl; [|done].
      intros [= <-]. by rewrite list_lookup_insert_ne.
Qed.

(** A loop that rewrites row [i] at step [i], under an invariant. *)
Lemma rows_loop (Q : matrix → Prop) (h : nat → list num → list num)
    (body : nat → matrix → option matrix) :
  (∀ i a row, Q a → a !! i = Some row →
              body i a = Some (<[i := h i row]> a) ∧ Q (<[i := h i row]> a)) →
  ∀ cnt lo a, Q a → lo + cnt = length a →
    for_range lo cnt body a
    = Some (take lo a ++ imap (λ k row, h (lo + k) row) (drop lo a)).
Proof.
  intros Hbody cnt. induction cnt as [|cnt IH]; intros lo a HQ Hlen; simpl.
  - rewrite drop_ge by lia. rewrite take_ge by lia. by rewrite app_nil_r.
  - destruct (lookup_lt_is_Some_2 a lo) as [row Hrow]; [lia|].
    destruct (Hbody lo a row HQ Hrow) as [-> HQ']. simpl.
    rewrite IH; [|done|rewrite length_insert; lia].
    f_equal. rewrite take_S_insert, drop_S_insert by lia.
    rewrite (drop_S a row lo Hrow). simpl. rewrite Nat.add_0_r.
    rewrite <- app_assoc. simpl. f_equal. f_equal.
    apply imap_ext. intros k x _. simpl. f_equal. lia.
Qed.

Lemma eliminate_spec (n c : nat) (a : matrix) (rowc : list num) :
  length a = n → Forall (λ row, length row = 2 * n) a →
  a !! c = Some rowc →
  eliminate n c a
  = Some (imap (λ i row, if Nat.eqb i c then row else clear_entry c rowc row) a).
Proof.
  intros Hn Hshape Hc. unfold eliminate.
  assert (Hlc : length rowc = 2 * n).
  { eapply (Forall_lookup_1 _ _ _ _ Hshape Hc). }
  assert (Hcn : c < n) by (rewrite <- Hn; by eapply lookup_lt_Some).
  rewrite (rows_loop
    (λ a', a' !! c = Some rowc ∧ Forall (λ row, length row = 2 * n) a')
    (λ i row, if Nat.eqb i c then row else clear_entry c rowc row)).
  - by rewrite drop_0.
  - intros i a' row [Hc' Hsh'] Hi.
    assert (Hlr : length row = 2 * n).
    { eapply (Forall_lookup_1 _ _ _ _ Hsh' Hi). }
    destruct (Nat.eqb_spec i c) as [->|Hic].
    + rewrite list_insert_id by done. done.
    + unfold clear_entry.
      destruct (lookup_lt_is_Some_2 row c) as [f Hf]; [lia|].
      rewrite (get2_Some _ _ _ _ Hi), Hf. cbn [mbind option_bind].
      rewrite (clear_row_spec n c i f a' rowc row) by done.
      split; [done|]. split.
      * by rewrite list_lookup_insert_ne.
      * apply Forall_insert; [done|].
        unfold axpy. rewrite length_zip_with. lia.
  - done.
  - lia.
Qed.
End Loops.

Section Matrices.
Context {num : Type} `{!JsNum num}.
Local Abbreviation matrix := (list (list num)).

Lemma mapM_total {X Y : Type} (f : X → option Y) (g : X → Y) (l : list X) :
  (∀ x, x ∈ l → f x = Some (g x)) → mapM f l = Some (map g l).
Proof.
  induction l as [|x l IH]; intros Hf; simpl; [done|].
  rewrite Hf by apply list_elem_of_here. simpl.
  rewrite IH; [done|]. intros y Hy. apply Hf. by apply list_elem_of_further.
Qed.

Lemma shape_lookup r c (a : matrix) i row :
  shape r c a → a !! i = Some row → length row = c ∧ i < r.
Proof.
  intros [Hr Hc] Hi. split.
  - by apply (Forall_lookup_1 _ _ _ _ Hc Hi).
  - rewrite <- Hr. by eapply lookup_lt_Some.
Qed.

Lemma AT_spec r c (m : matrix) :
  shape (S r) c m → AT m = Some (transpose c m).
Proof.
  intros Hsh. unfold AT.
  destruct (lookup_lt_is_Some_2 m 0) as [r0 Hr0]; [destruct Hsh; lia|].
  rewrite Hr0. simpl.
  destruct (shape_lookup _ _ _ _ _ Hsh Hr0) as [-> _].
  apply mapM_total. intros j Hj. apply elem_of_seq in Hj.
  apply mapM_total. intros row Hrow.
  apply list_elem_of_lookup in Hrow as [i Hi].
  destruct (shape_lookup _ _ _ _ _ Hsh Hi) as [Hl _].
  apply list_lookup_lookup_total_lt. lia.
Qed.

Lemma reduce_dot_spec (n : matrix) (j : nat) (r : list num) c :
  shape (length r) c n → j < c →
  reduce_dot n j r = Some (dot r (column j n)).
Proof.
  intros [Hr Hc] Hj. unfold reduce_dot, dot.
  assert (Hgen : ∀ (r : list num) k (n' : matrix) s,
    drop k n = n' → length n' = length r →
    foldl (λ acc kv, s ← acc; nkj ← get2 n kv.1 j; Some (s + kv.2 * nkj)%js)
          (Some s) (zip (seq k (length r)) r)
    = Some (foldl (λ s vw, s + vw.1 * vw.2)%js s (zip r (column j n')))).
  { intros r'. induction r' as [|v r' IH]; intros k n' s Hd Hl; [done|].
    destruct n' as [|row n']; simpl in Hl; [lia|].
    simpl.
    assert (Hk : n !! k = Some row).
    { rewrite <- (Nat.add_0_r k). rewrite <- lookup_drop. by rewrite Hd. }
    unfold get2 at 2. rewrite Hk. simpl.
    assert (Hrow : row !! j = Some (row !!! j)).
    { apply list_lookup_lookup_total_lt.
      rewrite (Forall_lookup_1 _ _ _ _ Hc Hk). done. }
    rewrite Hrow. simpl. apply IH; [|lia].
    replace (S k) with (k + 1) by lia. by rewrite <- drop_drop, Hd. }
  apply (Hgen r 0 n); [apply drop_0|done].
Qed.

Lemma mul_spec r k c (m n : matrix) :
  shape r (S k) m → shape (S k) c n → mul m n = Some (mat_mul c m n).
Proof.
  intros Hm Hn. unfold mul, mat_mul.
  destruct (lookup_lt_is_Some_2 n 0) as [n0 Hn0]; [destruct Hn; lia|].
  destruct (shape_lookup _ _ _ _ _ Hn Hn0) as [Hl0 _].
  apply mapM_total. intros row Hrow. rewrite Hn0. simpl. rewrite Hl0.
  apply list_elem_of_lookup in Hrow as [i Hi].
  destruct (shape_lookup _ _ _ _ _ Hm Hi) as [Hl _].
  apply mapM_total. intros j Hj. apply elem_of_seq in Hj.
  apply (reduce_dot_spec n j row c); [by rewrite Hl|lia].
Qed.

Lemma transpose_shape r c (m : matrix) : length m = r → shape c r (transpose c m).
Proof.
  intros Hr. split.
  - unfold transpose. by rewrite length_map, length_seq.
  - apply Forall_forall. intros col Hcol. unfold transpose in Hcol.
    apply list_elem_of_fmap in Hcol as (j & -> & _).
    unfold column. by rewrite length_map.
Qed.

Lemma mat_mul_shape r c (m n : matrix) : length m = r → shape r c (mat_mul c m n).
Proof.
  intros Hr. split.
  - unfold mat_mul. by rewrite length_map.
  - apply Forall_forall. intros row Hrow. unfold mat_mul in Hrow.
    apply list_elem_of_fmap in Hrow as (j & -> & _).
    by rewrite length_map, length_seq.
Qed.

Lemma augment_shape n (m : matrix) : shape n n m → shape n (2 * n) (augment m).
Proof.
  intros [Hn Hc]. split.
  - unfold augment. by rewrite length_imap.
  - apply Forall_lookup. intros i row Hi. unfold augment in Hi.
    rewrite list_lookup_imap in Hi.
    destruct (m !! i) as [r|] eqn:Hr; simpl in Hi; [|done].
    injection Hi as <-. rewrite length_app, length_map, length_seq.
    rewrite (Forall_lookup_1 _ _ _ _ Hc Hr). lia.
Qed.

Lemma pivot_row_spec (Q : nat → nat → Prop) (a : matrix) n c :
  shape n (2 * n) a → c < n →
  Q (S c) c →
  (∀ i r aic arc, c < i < n → c ≤ r < i → Q i r →
     get2 a i c = Some aic → get2 a r c = Some arc →
     Q (S i) (if (num_abs aic >? num_abs arc)%js then i else r)) →
  ∃ r, pivot_row a n c = Some r ∧ c ≤ r < n ∧ Q n r.
Proof.
  intros Hsh Hc HQ0 HQ. unfold pivot_row.
  assert (Hget : ∀ i, i < n → ∃ v, get2 a i c = Some v).
  { intros i Hi. destruct (lookup_lt_is_Some_2 a i) as [row Hrow];
      [destruct Hsh; lia|].
    destruct (shape_lookup _ _ _ _ _ Hsh Hrow) as [Hl _].
    destruct (lookup_lt_is_Some_2 row c) as [v Hv]; [lia|].
    exists v. by rewrite (get2_Some _ _ _ _ Hrow). }
  destruct (for_range_inv (λ i r, c ≤ r < i ∧ Q i r)
    (λ i r, aic ← get2 a i c; arc ← get2 a r c;
            Some (if (num_abs aic >? num_abs arc)%js then i else r))
    (n - (c + 1)) (c + 1) c) as (r & Hr & Hrange & HQr).
  - split; [lia|]. by replace (c + 1) with (S c) by lia.
  - intros i r Hi [Hri HQi].
    destruct (Hget i) as [aic Haic]; [lia|].
    destruct (Hget r) as [arc Harc]; [lia|].
    rewrite Haic, Harc. simpl. eexists. split; [done|]. split.
    + destruct (num_abs aic >? num_abs arc)%js; lia.
    + apply HQ; try done. lia.
  - exists r. replace (c + 1 + (n - (c + 1))) with n in * by lia. done.
Qed.

Lemma inv_step_spec n c r (a : matrix) rowc rowr p :
  shape n (2 * n) a →
  pivot_row a n c = Some r →
  a !! c = Some rowc → a !! r = Some rowr → rowr !! c = Some p →
  inv_step n c a = Some (reduce_column c r rowc rowr p a).
Proof.
  intros Hsh Hpiv Hc Hr Hp. unfold inv_step. rewrite Hpiv. cbn [mbind option_bind].
  unfold swap_rows. rewrite Hr, Hc. cbn [mbind option_bind].
  destruct (shape_lookup _ _ _ _ _ Hsh Hc) as [Hlc Hcn].
  destruct (shape_lookup _ _ _ _ _ Hsh Hr) as [Hlr Hrn].
  destruct Hsh as [Hn Hrows].
  set (a1 := <[r := rowc]> (<[c := rowr]> a)).
  assert (Ha1c : a1 !! c = Some rowr).
  { unfold a1. destruct (decide (r = c)) as [->|Hrc].
    - rewrite list_lookup_insert_eq by (rewrite length_insert; lia). congruence.
    - rewrite list_lookup_insert_ne by done.
      by rewrite list_lookup_insert_eq by lia. }
  assert (Hsh1 : Forall (λ row, length row = 2 * n) a1).
  { unfold a1. by repeat apply Forall_insert. }
  unfold pivot_divisor. rewrite (get2_Some _ _ _ _ Ha1c), Hp. cbn [mbind option_bind].
  rewrite (scale_row_spec n c _ a1 rowr Ha1c Hlr). cbn [mbind option_bind].
  unfold reduce_column. fold a1.
  apply eliminate_spec.
  - unfold a1. by rewrite !length_insert.
  - apply Forall_insert; [done|]. by rewrite length_map.
  - by rewrite list_lookup_insert_eq by (unfold a1; rewrite !length_insert; lia).
Qed.

Lemma reduce_column_shape n c r (a : matrix) rowc rowr p :
  shape n (2 * n) a → length rowc = 2 * n → length rowr = 2 * n →
  shape n (2 * n) (reduce_column c r rowc rowr p a).
Proof.
  intros [Hn Hrows] Hlc Hlr. unfold reduce_column. split.
  - by rewrite length_imap, !length_insert.
  - apply Forall_lookup. intros i row Hi.
    rewrite list_lookup_imap in Hi.
    destruct (_ !! i) as [row0|] eqn:Hrow0; simpl in Hi; [|done].
    injection Hi as <-.
    assert (Hl0 : length row0 = 2 * n).
    { eapply (Forall_lookup_1 (λ row, length row = 2 * n)); [|exact Hrow0].
      repeat apply Forall_insert; try done. by rewrite length_map. }
    destruct (Nat.eqb i c); [done|].
    unfold clear_entry. destruct (row0 !! c); [|done].
    unfold axpy. rewrite length_zip_with, length_map. lia.
Qed.

(** The column loop of [inv] does not fail on a square matrix. *)
Lemma inv_total n (m : matrix) :
  shape n n m → ∃ mi, inv m = Some mi ∧ shape n n mi.
Proof.
  intros Hm. unfold inv. fold (augment m).
  destruct Hm as [Hn Hc]. rewrite Hn.
  destruct (for_range_inv (λ _ a, shape n (2 * n) a) (inv_step n) n 0 (augment m))
    as (a & Ha & Hsh).
  - by apply augment_shape.
  - intros c a Hcn Hsh.
    destruct (pivot_row_spec (λ _ _, True) a n c) as (r & Hr & Hrn & _);
      [done|lia|done|done|].
    destruct (lookup_lt_is_Some_2 a c) as [rowc Hrowc]; [destruct Hsh; lia|].
    destruct (lookup_lt_is_Some_2 a r) as [rowr Hrowr]; [destruct Hsh; lia|].
    destruct (shape_lookup _ _ _ _ _ Hsh Hrowc) as [Hlc _].
    destruct (shape_lookup _ _ _ _ _ Hsh Hrowr) as [Hlr _].
    destruct (lookup_lt_is_Some_2 rowr c) as [p Hp]; [lia|].
    eexists. split; [by eapply inv_step_spec|].
    by apply reduce_column_shape.
  - rewrite Ha. simpl. eexists. split; [done|].
    destruct Hsh as [Hl Hrows]. split; [by rewrite length_map|].
    apply Forall_fmap. eapply Forall_impl; [exact Hrows|].
    intros row Hrow. simpl in *. rewrite length_drop. lia.
Qed.
End Matrices.

Section SolveAffineForm.
Context {num : Type} `{!JsNum num}.
Local Abbreviation matrix := (list (list num)).

Lemma design_spec (from to : list (Point num)) :
  length from = 4 → length to = 4 →
  design from to = Some (design_rows from, targets to).
Proof.
  intros Hf Ht.
  destruct from as [|p0 [|p1 [|p2 [|p3 [|? ?]]]]]; try discriminate Hf.
  destruct to as [|q0 [|q1 [|q2 [|q3 [|? ?]]]]]; try discriminate Ht.
  reflexivity.
Qed.

Lemma design_rows_shape (from : list (Point num)) :
  shape (2 * length from) 6 (design_rows from).
Proof.
  induction from as [|p from [IH1 IH2]]; [by split|]. split.
  - simpl in *. lia.
  - simpl. by repeat constructor.
Qed.

Lemma targets_length (to : list (Point num)) : length (targets to) = 2 * length to.
Proof. induction to as [|q to IH]; simpl in *; lia. Qed.

(** [solveAffine] once the inverse is known: the products that remain. *)
Lemma solveAffine_form (from to : list (Point num)) (Mi : matrix) :
  length from = 4 → length to = 4 →
  inv (mat_mul 6 (transpose 6 (design_rows from)) (design_rows from)) = Some Mi →
  shape 6 6 Mi →
  solveAffine from to
  = affine_of (map (λ r : list num, r !!! 0)
      (mat_mul 1 Mi (mat_mul 1 (transpose 6 (design_rows from))
                                 (map (λ v, [v]) (targets to))))).
Proof.
  intros Hf Ht Hinv HMi. unfold solveAffine.
  rewrite (design_spec from to Hf Ht). cbn [mbind option_bind fst snd].
  pose proof (design_rows_shape from) as HA. rewrite Hf in HA.
  rewrite (AT_spec 7 6 _ HA). cbn [mbind option_bind].
  assert (HAT : shape 6 8 (transpose 6 (design_rows from))).
  { apply transpose_shape. by destruct HA. }
  rewrite (mul_spec 6 7 6 _ _ HAT HA). cbn [mbind option_bind].
  rewrite Hinv. cbn [mbind option_bind].
  assert (HB : shape 8 1 (map (λ v : num, [v]) (targets to))).
  { split; [by rewrite length_map, targets_length, Ht|].
    apply Forall_fmap, Forall_forall. by intros. }
  rewrite (mul_spec 6 7 1 _ _ HAT HB). cbn [mbind option_bind].
  assert (HATB : shape 6 1 (mat_mul 1 (transpose 6 (design_rows from))
                               (map (λ v : num, [v]) (targets to)))).
  { apply mat_mul_shape. by destruct HAT. }
  rewrite (mul_spec 6 5 1 _ _ HMi HATB). cbn [mbind option_bind].
  rewrite (mapM_total _ (λ r : list num, r !!! 0)); [done|].
  intros row Hrow. apply list_lookup_lookup_total_lt.
  assert (Hsh : shape 6 1 (mat_mul 1 Mi (mat_mul 1 (transpose 6 (design_rows from))
                               (map (λ v : num, [v]) (targets to)))))
    by (apply mat_mul_shape; by destruct HMi).
  destruct Hsh as [_ Hrows]. rewrite (proj1 (Forall_forall _ _) Hrows row Hrow). lia.
Qed.

(** [solveAffine] does not fail on four correspondences. *)
Lemma solveAffine_total (from to : list (Point num)) :
  length from = 4 → length to = 4 → is_Some (solveAffine from to).
Proof.
  intros Hf Ht.
  destruct (inv_total 6 (mat_mul 6 (transpose 6 (design_rows from)) (design_rows from)))
    as (Mi & Hinv & HMi).
  { apply mat_mul_shape. unfold transpose. by rewrite length_map, length_seq. }
  rewrite (solveAffine_form from to Mi Hf Ht Hinv HMi).
  destruct HMi as [Hl _].
  unfold mat_mul at 1.
  destruct Mi as [|r0 [|r1 [|r2 [|r3 [|r4 [|r5 [|? ?]]]]]]]; try discriminate Hl.
  simpl. eauto.
Qed.
End SolveAffineForm.

(** ** orderQuad: the shape of the result *)

Section OrderQuadFacts.
Context {num : Type} `{!JsNum num} {A : Type} (xy : A → Point num).

Lemma sort_insert_Permutation (cmp : A → A → num) (v : A) (l : list A) :
  sort_insert cmp v l ≡ₚ v :: l.
Proof.
  induction l as [|e l IH]; simpl; [done|].
  destruct (cmp v e <? of_Z 0)%js; [done|].
  rewrite IH. apply Permutation_swap.
Qed.

Lemma sort_Permutation (cmp : A → A → num) (l : list A) : sort cmp l ≡ₚ l.
Proof.
  unfold sort.
  assert (Hgen : ∀ acc, foldl (λ acc v, sort_insert cmp v acc) acc l ≡ₚ acc ++ l).
  { induction l as [|v l IH]; intros acc; simpl; [by rewrite app_nil_r|].
    rewrite IH, sort_insert_Permutation. simpl. apply Permutation_middle. }
  apply (Hgen []).
Qed.

Lemma scan_bound (l : list A) : ∀ k st,
  let r := foldl (scan_step xy) st (zip (seq k (length l)) l) in
  r.1 = st.1 ∨ k ≤ r.1 < k + length l.
Proof.
  induction l as [|p l IH]; intros k st; simpl; [by left|].
  destruct (IH (S k) (scan_step xy st (k, p))) as [Heq|Hin].
  - rewrite Heq. unfold scan_step. simpl.
    destruct (below _ _); simpl; [right; lia|by left].
  - right. lia.
Qed.

Lemma scan_start_lt (l : list A) : l ≠ [] → scan_start xy l < length l.
Proof.
  intros Hl. unfold scan_start.
  destruct (scan_bound l 0 (0, Infinity)) as [->|H]; simpl; [|lia].
  destruct l; [done|simpl; lia].
Qed.

(** On four points the result is the sorted array, rotated to start at
    [start]. *)
Lemma orderQuadOn_rotate (pts : list A) :
  length pts = 4 →
  orderQuadOn xy pts
  = map Some (rotate (scan_start xy (sort (angle_cmp xy (centroid xy pts)) pts))
                     (sort (angle_cmp xy (centroid xy pts)) pts)).
Proof.
  intros Hlen. unfold orderQuadOn.
  set (s := sort (angle_cmp xy (centroid xy pts)) pts).
  assert (Hs : length s = 4).
  { unfold s. by rewrite (Permutation_length (sort_Permutation _ pts)). }
  assert (Hst : scan_start xy s < 4).
  { rewrite <- Hs. apply scan_start_lt. by destruct s. }
  destruct s as [|s0 [|s1 [|s2 [|s3 [|? ?]]]]]; try discriminate Hs.
  destruct (scan_start xy [s0; s1; s2; s3]) as [|[|[|[|?]]]]; try lia; reflexivity.
Qed.

Lemma rotate_Permutation {B : Type} (n : nat) (l : list B) : rotate n l ≡ₚ l.
Proof. unfold rotate. rewrite Permutation_app_comm. by rewrite take_drop. Qed.

Lemma orderQuadOn_Permutation (pts : list A) :
  length pts = 4 →
  ∃ q, orderQuadOn xy pts = map Some q ∧ q ≡ₚ pts.
Proof.
  intros Hlen. eexists. split; [by apply orderQuadOn_rotate|].
  rewrite rotate_Permutation. apply sort_Permutation.
Qed.
End OrderQuadFacts.

(** ** The orchestration *)

Section AppFacts.
Context {num : Type} `{!JsNum num}.
Local Abbreviation state := (gmap string (value num)).

Lemma or_else_truthy (a b : num) : truthy b = true → truthy (a || b)%js = true.
Proof. intros Hb. unfold or_else. by destruct (truthy a) eqn:Ha. Qed.

Lemma dom_fitPatch (pose : Pose num) : dom (fitPatch pose) = fitFields.
Proof. unfold fitPatch, fitFields. rewrite !dom_insert_L, dom_singleton_L. set_solver. Qed.

Lemma set_lookup_patch (patch prev : state) k :
  k ∈ dom patch → set patch prev !! k = patch !! k.
Proof.
  intros Hk. apply elem_of_dom in Hk as [v Hv]. unfold set.
  by rewrite (lookup_union_Some_l _ _ _ _ Hv).
Qed.

Lemma set_lookup_frame (patch prev : state) k :
  k ∉ dom patch → set patch prev !! k = prev !! k.
Proof.
  intros Hk. apply not_elem_of_dom in Hk. unfold set.
  by rewrite lookup_union_r.
Qed.

Lemma tbind_must {X Y : Type} (a : X) (k : X → traced num Y) :
  tbind (must (Some a)) k = k a.
Proof. unfold tbind, must. simpl. by destruct (k a). Qed.

Lemma tbind_invoke {X Y : Type} (c : call num) (a : X) (k : X → traced num Y) :
  tbind (invoke c (Some a)) k = (c :: (k a).1, (k a).2).
Proof. done. Qed.

(** With four points and the number fields it reads, the fit runs to its
    end: the three calls, then one [set], of the pose decomposed from the
    map that [solveAffine] returns for the corners of the source rectangle
    and the ordered points mapped to the world. *)
Lemma applyFourPointFit_runs (env : Env num) (S : state) pts size imgW imgH :
  points_field S "fitPoints" = Some pts → length pts = 4 →
  num_field S "size" = Some size →
  num_field S "imgW" = Some imgW → num_field S "imgH" = Some imgH →
  ∃ quad aff,
    orderQuad pts = map Some quad
    ∧ length quad = 4
    ∧ solveAffine
        (sourceCorners
           (or_else (textWorldSize env).1 (of_Z 1)
            + size * of_dec 5 (-1) * of_Z 2)%js
           (or_else (textWorldSize env).2 (of_Z 1)
            + size * of_dec 5 (-1) * of_Z 2)%js)
        (map (screenToWorld (dispW env imgW) (dispH env imgW imgH) imgW imgH) quad)
      = Some aff
    ∧ applyFourPointFit env S
      = ([CallOrderQuad; CallSolveAffine; CallDecompose;
          CallSet (fitPatch (decomposeAffineToTRS aff))], Some tt).
Proof.
  intros Hpts Hlen Hsize HimgW HimgH. unfold applyFourPointFit.
  rewrite Hpts, tbind_must, Hlen. simpl negb. cbv iota.
  destruct (orderQuadOn_Permutation (λ p, p) pts Hlen) as (q & Hq & Hperm).
  unfold orderQuad. rewrite Hq, tbind_invoke, Hsize, tbind_must.
  rewrite HimgW, tbind_must, HimgH, tbind_must.
  pose proof (Permutation_length Hperm) as Hlq. rewrite Hlen in Hlq.
  destruct q as [|q0 [|q1 [|q2 [|q3 [|? ?]]]]]; try discriminate Hlq.
  set (src := sourceCorners _ _).
  destruct (solveAffine_total src
    (map (screenToWorld (dispW env imgW) (dispH env imgW imgH) imgW imgH)
         [q0; q1; q2; q3])) as [aff Haff]; [done|done|].
  exists [q0; q1; q2; q3], aff. split; [done|]. split; [done|]. split; [done|].
  cbn [map mapM mbind option_bind mret option_ret]. rewrite tbind_must.
  cbn [map] in Haff. rewrite Haff, !tbind_invoke. done.
Qed.
End AppFacts.

(** ** orderQuad leaves its input alone *)

Section OrderQuadStoreFacts.
Context {num : Type} `{!JsNum num}.

(** The order does not depend on how the elements carry their
    coordinates. *)
Lemma sort_insert_natural {A B : Type} (xyA : A → Point num) (xyB : B → Point num)
    (f : A → B) (c : num * num) (v : A) (l : list A) :
  (∀ a, xyB (f a) = xyA a) →
  map f (sort_insert (angle_cmp xyA c) v l)
  = sort_insert (angle_cmp xyB c) (f v) (map f l).
Proof.
  intros Hf. induction l as [|e l IH]; simpl; [done|].
  unfold angle_cmp at 1 3, angle. rewrite !Hf.
  destruct (num_lt _ _); simpl; [done|]. by rewrite IH.
Qed.

Lemma sort_natural {A B : Type} (xyA : A → Point num) (xyB : B → Point num)
    (f : A → B) (c : num * num) (l : list A) :
  (∀ a, xyB (f a) = xyA a) →
  map f (sort (angle_cmp xyA c) l) = sort (angle_cmp xyB c) (map f l).
Proof.
  intros Hf. unfold sort.
  assert (Hgen : ∀ acc,
    map f (foldl (λ acc v, sort_insert (angle_cmp xyA c) v acc) acc l)
    = foldl (λ acc v, sort_insert (angle_cmp xyB c) v acc) (map f acc) (map f l)).
  { induction l as [|v l IH]; intros acc; simpl; [done|].
    by rewrite IH, (sort_insert_natural xyA xyB f c v acc Hf). }
  apply (Hgen []).
Qed.

Lemma reduce_sum_natural {A B : Type} (f : A → B) (g : B → num) (l : list A) :
  reduce_sum g (map f l) = reduce_sum (λ a, g (f a)) l.
Proof.
  unfold reduce_sum. generalize (of_Z 0).
  induction l as [|a l IH]; intros s; simpl; [done|]. apply IH.
Qed.

Lemma reduce_sum_ext {A : Type} (g h : A → num) (l : list A) :
  (∀ a, g a = h a) → reduce_sum g l = reduce_sum h l.
Proof.
  intros Hgh. unfold reduce_sum. generalize (of_Z 0).
  induction l as [|a l IH]; intros s; simpl; [done|]. by rewrite Hgh, IH.
Qed.

Lemma centroid_natural {A B : Type} (xyA : A → Point num) (xyB : B → Point num)
    (f : A → B) (l : list A) :
  (∀ a, xyB (f a) = xyA a) → centroid xyB (map f l) = centroid xyA l.
Proof.
  intros Hf. unfold centroid. rewrite !reduce_sum_natural, length_map.
  rewrite (reduce_sum_ext (λ a, px (xyB (f a))) (λ a, px (xyA a)))
    by (intros a; by rewrite Hf).
  by rewrite (reduce_sum_ext (λ a, py (xyB (f a))) (λ a, py (xyA a)))
    by (intros a; by rewrite Hf).
Qed.

Lemma scan_start_natural {A B : Type} (xyA : A → Point num) (xyB : B → Point num)
    (f : A → B) (l : list A) :
  (∀ a, xyB (f a) = xyA a) → scan_start xyB (map f l) = scan_start xyA l.
Proof.
  intros Hf. unfold scan_start. f_equal. rewrite length_map.
  generalize 0 at 2 4. generalize (0, @Infinity num).
  induction l as [|a l IH]; intros st k; simpl; [done|].
  rewrite IH. f_equal. unfold scan_step. simpl. by rewrite Hf.
Qed.

Lemma orderQuadOn_natural {A B : Type} (xyA : A → Point num) (xyB : B → Point num)
    (f : A → B) (l : list A) :
  (∀ a, xyB (f a) = xyA a) →
  orderQuadOn xyB (map f l) = map (fmap f) (orderQuadOn xyA l).
Proof.
  intros Hf. unfold orderQuadOn.
  rewrite (centroid_natural xyA xyB f l Hf).
  rewrite <- (sort_natural xyA xyB f _ l Hf).
  rewrite (scan_start_natural xyA xyB f _ Hf).
  cbn [map]. by rewrite !list_lookup_fmap.
Qed.

Lemma mapM_zip {X Y : Type} (g : X → option Y) (l : list X) (k : list Y) :
  mapM g l = Some k → map fst (zip l k) = l ∧ map snd (zip l k) = k.
Proof.
  intros Hk. apply mapM_Some in Hk. apply Forall2_length in Hk as Hlen.
  split; [by apply fst_zip; lia|by apply snd_zip; lia].
Qed.

Lemma mapM_zip_lookup {X Y : Type} (g : X → option Y) (l : list X) (k : list Y) :
  mapM g l = Some k → ∀ x, x ∈ zip l k → g x.1 = Some x.2.
Proof.
  intros Hk. apply mapM_Some in Hk.
  induction Hk as [|a b l k Hab _ IH]; intros x Hx; simpl in Hx.
  - by apply elem_of_nil in Hx.
  - apply elem_of_cons in Hx as [->|Hx]; [done|by apply IH].
Qed.

(** C10.  [orderQuad] works on a copy: run on the array [points] of four
    point objects, it changes neither that array nor any other array that
    existed, nor any point object; and the array it returns holds the four
    elements of [points], each one once.  The values of the returned
    elements are what [orderQuad] returns on the values of the elements. *)
Theorem orderQuad_keeps_input (points : nat) (σ : store num)
    (elems : list nat) (objs : list (Point num)) :
  arrays σ !! points = Some elems → length elems = 4 →
  mapM (λ r, objects σ !! r) elems = Some objs →
  ∃ out σ',
    orderQuad_store points σ = Some (map Some out, σ')
    ∧ arrays σ' !! points = Some elems
    ∧ (∀ r, r ∈ dom (arrays σ) → arrays σ' !! r = arrays σ !! r)
    ∧ objects σ' = objects σ
    ∧ out ≡ₚ elems
    ∧ orderQuad objs = map (λ r, objects σ !! r) out.
Proof.
  intros Hpts Hlen Hobjs.
  destruct (mapM_zip _ _ _ Hobjs) as [Hfst Hsnd].
  assert (Hlz : length (zip elems objs) = 4).
  { by rewrite <- (length_map fst), Hfst. }
  destruct (orderQuadOn_Permutation snd (zip elems objs) Hlz) as (q & Hq & Hperm).
  pose proof (is_fresh (dom (arrays σ))) as Hfresh.
  set (pts := fresh (dom (arrays σ))) in *.
  assert (Hne : ∀ r, r ∈ dom (arrays σ) → pts ≠ r) by (intros r Hr ->; done).
  exists (map fst q), (MkStore (<[pts := map fst (sort (angle_cmp snd
            (centroid snd (zip elems objs))) (zip elems objs))]>
            (<[pts := elems]> (arrays σ))) (objects σ)).
  split; [|split; [|split; [|split; [|split]]]].
  - unfold orderQuad_store. rewrite Hpts. cbn [mbind option_bind arrays objects].
    rewrite Hobjs. cbn [mbind option_bind]. fold pts. f_equal. f_equal.
    transitivity (map (fmap fst) (orderQuadOn snd (zip elems objs))); [done|].
    by rewrite Hq, !map_map.
  - cbn [arrays]. rewrite !lookup_insert_ne; [done| |];
      apply Hne, elem_of_dom; by eexists.
  - intros r Hr. cbn [arrays]. by rewrite !lookup_insert_ne by (by apply Hne).
  - done.
  - by rewrite Hperm, Hfst.
  - unfold orderQuad. rewrite <- Hsnd at 1.
    rewrite (orderQuadOn_natural snd (λ p, p) snd (zip elems objs)) by done.
    rewrite Hq, !map_map. apply map_ext_in. intros x Hx. simpl.
    symmetry. apply (mapM_zip_lookup _ _ _ Hobjs).
    rewrite <- Hperm. by apply list_elem_of_In.
Qed.
End OrderQuadStoreFacts.

(** ** The divisions of [inv] *)

Section PivotDivisions.
Context {num : Type} `{!JsNum num} `{!JsNumLaws num}.
Local Abbreviation matrix := (list (list num)).

Lemma reduce_column_lookup_pivot c r (rowc rowr : list num) p (a : matrix) :
  c < length a →
  reduce_column c r rowc rowr p a !! c
  = Some (map (λ v, v / or_else p (of_dec 1 (-9)))%js rowr).
Proof.
  intros Hc. unfold reduce_column. rewrite list_lookup_imap.
  rewrite list_lookup_insert_eq by (by rewrite !length_insert).
  simpl. by rewrite Nat.eqb_refl.
Qed.

(** A column step of [inv] on a matrix of the shape that the loop keeps:
    what it reads, and the row it leaves at the pivot. *)
Lemma inv_step_runs n c (a : matrix) :
  shape n (2 * n) a → c < n →
  ∃ r rowr p a',
    pivot_row a n c = Some r
    ∧ a !! r = Some rowr
    ∧ rowr !! c = Some p
    ∧ inv_step n c a = Some a'
    ∧ a' !! c = Some (map (λ v, v / or_else p (of_dec 1 (-9)))%js rowr)
    ∧ shape n (2 * n) a'.
Proof.
  intros Hsh Hcn.
  destruct (pivot_row_spec (λ _ _, True) a n c) as (r & Hr & Hrn & _);
    [done|lia|done|done|].
  destruct (lookup_lt_is_Some_2 a c) as [rowc Hrowc]; [destruct Hsh; lia|].
  destruct (lookup_lt_is_Some_2 a r) as [rowr Hrowr]; [destruct Hsh; lia|].
  destruct (shape_lookup _ _ _ _ _ Hsh Hrowc) as [Hlc _].
  destruct (shape_lookup _ _ _ _ _ Hsh Hrowr) as [Hlr _].
  destruct (lookup_lt_is_Some_2 rowr c) as [p Hp]; [lia|].
  exists r, rowr, p, (reduce_column c r rowc rowr p a).
  split; [done|]. split; [done|]. split; [done|].
  split; [by eapply inv_step_spec|].
  split; [apply reduce_column_lookup_pivot; destruct Hsh; lia|].
  by apply reduce_column_shape.
Qed.

(** In the run of [inv] on a square matrix, the step of every column
    divides the pivot row by a truthy number. *)
Lemma inv_pivot_divisions n (m : matrix) c :
  shape n n m → c < n →
  ∃ a r rowr p a',
    for_range 0 c (inv_step n) (augment m) = Some a
    ∧ pivot_row a n c = Some r
    ∧ a !! r = Some rowr
    ∧ rowr !! c = Some p
    ∧ truthy (or_else p (of_dec 1 (-9))) = true
    ∧ (truthy p = false → or_else p (of_dec 1 (-9)) = of_dec 1 (-9))
    ∧ inv_step n c a = Some a'
    ∧ a' !! c = Some (map (λ v, v / or_else p (of_dec 1 (-9)))%js rowr).
Proof.
  intros Hm Hc.
  destruct (for_range_inv (λ _ a, shape n (2 * n) a) (inv_step n) c 0 (augment m))
    as (a & Ha & Hsh).
  - by apply augment_shape.
  - intros i a Hi Hsh.
    destruct (inv_step_runs n i a Hsh) as (r & rowr & p & a' & _ & _ & _ & Hs & _ & Hsh');
      [lia|].
    by exists a'.
  - destruct (inv_step_runs n c a Hsh Hc) as (r & rowr & p & a' & Hr & Hrr & Hp & Hs & Hrow & _).
    exists a, r, rowr, p, a'. repeat split; try done.
    + apply or_else_truthy, truthy_eps.
    + intros Hz. unfold or_else. by rewrite Hz.
Qed.
End PivotDivisions.

Section AppTheorems.
Context {num : Type} `{!JsNum num}.
Local Abbreviation state := (gmap string (value num)).

(** C9.  The click handler of the point picker keeps at most four points:
    whatever the points so far and wherever the click, the list it hands
    to [onPointsChange] is the points so far with the click appended, cut to
    its first four entries, and that is the [fitPoints] of the state after
    the update. *)
Theorem addPoint_at_most_four (points : option (list (Point num)))
    (clientX clientY left top : num) (prev : state) :
  let pts := addPoint points clientX clientY left top in
  pts = take 4 (default [] points ++ [Pt (num_sub clientX left) (num_sub clientY top)])
  ∧ length pts ≤ 4
  ∧ points_field (set (onPointsChange pts) prev) "fitPoints" = Some pts.
Proof.
  simpl. split; [done|]. split.
  - unfold addPoint. rewrite length_take. lia.
  - unfold points_field, set, onPointsChange.
    by rewrite (lookup_union_Some_l _ _ _ _ (lookup_singleton_eq _ _)).
Qed.

(** C7.  When [fitPoints] does not hold exactly four points,
    [applyFourPointFit] returns at once: it calls none of [orderQuad],
    [solveAffine], [decomposeAffineToTRS] and [set], and the state is
    what it was. *)
Theorem fit_refuses_without_four_points (env : Env num) (S : state)
    (pts : list (Point num)) :
  points_field S "fitPoints" = Some pts → length pts ≠ 4 →
  applyFourPointFit env S = ([], Some tt)
  ∧ ∀ prev, run_calls (applyFourPointFit env S).1 prev = prev.
Proof.
  intros Hpts Hlen.
  assert (Hrun : applyFourPointFit env S = ([], Some tt)).
  { unfold applyFourPointFit. rewrite Hpts, tbind_must.
    destruct (Nat.eqb_spec (length pts) 4) as [Heq|_]; [by destruct Hlen|done]. }
  split; [done|]. intros prev. by rewrite Hrun.
Qed.

(** C8.  With exactly four points (and the number fields it reads in the
    state) [applyFourPointFit] makes one call of [set], after the three
    calls of the solver, with one object that carries signTX, signTY,
    signRZ, signScale, fitMode = false and fitPoints = [] and nothing
    else.  The four numbers are those of the solved pose: with [aff] the
    map that [solveAffine] returns for the corners of the source
    rectangle and the ordered points mapped to the world, signTX = c,
    signTY = f, signRZ = atan2(d, a) and signScale =
    max(0.05, (hypot(a, d) + hypot(b, e)) / 2 || 1).  The state after the
    call has these six values and every other field as before. *)
Theorem fit_single_atomic_update (env : Env num) (S : state)
    (pts : list (Point num)) (size imgW imgH : num) :
  points_field S "fitPoints" = Some pts → length pts = 4 →
  num_field S "size" = Some size →
  num_field S "imgW" = Some imgW → num_field S "imgH" = Some imgH →
  ∃ quad aff,
    orderQuad pts = map Some quad
    ∧ solveAffine
        (sourceCorners
           (or_else (textWorldSize env).1 (of_Z 1)
            + size * of_dec 5 (-1) * of_Z 2)%js
           (or_else (textWorldSize env).2 (of_Z 1)
            + size * of_dec 5 (-1) * of_Z 2)%js)
        (map (screenToWorld (dispW env imgW) (dispH env imgW imgH) imgW imgH) quad)
      = Some aff
    ∧ applyFourPointFit env S
      = ([CallOrderQuad; CallSolveAffine; CallDecompose;
          CallSet (fitPatch (decomposeAffineToTRS aff))], Some tt)
    ∧ dom (fitPatch (decomposeAffineToTRS aff)) = fitFields
    ∧ ∀ prev, let S' := run_calls (applyFourPointFit env S).1 prev in
        S' !! "signTX" = Some (VNum (af_c aff))
        ∧ S' !! "signTY" = Some (VNum (af_f aff))
        ∧ S' !! "signRZ" = Some (VNum (atan2 (af_d aff) (af_a aff)))
        ∧ S' !! "signScale"
          = Some (VNum (num_max (of_dec 5 (-2))
               (or_else ((hypot (af_a aff) (af_d aff)
                          + hypot (af_b aff) (af_e aff)) / of_Z 2)%js (of_Z 1))))
        ∧ S' !! "fitMode" = Some (VBool false)
        ∧ S' !! "fitPoints" = Some (VPoints [])
        ∧ ∀ k, k ∉ fitFields → S' !! k = prev !! k.
Proof.
  intros Hpts Hlen Hsize HimgW HimgH.
  destruct (applyFourPointFit_runs env S pts size imgW imgH)
    as (quad & aff & Hquad & _ & Haff & Hrun); try done.
  exists quad, aff. split; [done|]. split; [done|]. split; [done|].
  split; [apply dom_fitPatch|].
  intros prev. rewrite Hrun. cbn [fst run_calls foldl].
  assert (Hin : ∀ k v, fitPatch (decomposeAffineToTRS aff) !! k = Some v →
                       set (fitPatch (decomposeAffineToTRS aff)) prev !! k = Some v).
  { intros k v Hk. unfold set. by rewrite (lookup_union_Some_l _ _ _ _ Hk). }
  repeat split; try (apply Hin; reflexivity).
  intros k Hk. apply set_lookup_frame. by rewrite dom_fitPatch.
Qed.

(** C6.  With exactly four picked points, coincident or collinear ones
    too, [applyFourPointFit] runs to its end without an error: no read is
    out of range, the call of [set] is made, and the signScale it writes is
    0.05 or above it.  The run of [inv] on the matrix AᵗA of the fit, which
    is the loop of [inv_step] over the six columns, returns, and the step of
    every column [c] divides the pivot row by [d = p || 1e-9], where [p]
    is the pivot that the row search has found: [d] is truthy (not zero,
    not NaN), and it is 1e-9 when the pivot is zero. *)
Theorem fit_never_raises `{!JsNumLaws num} (env : Env num) (S : state)
    (pts : list (Point num)) (size imgW imgH : num) :
  points_field S "fitPoints" = Some pts → length pts = 4 →
  num_field S "size" = Some size →
  num_field S "imgW" = Some imgW → num_field S "imgH" = Some imgH →
  (∃ pose s,
     applyFourPointFit env S
     = ([CallOrderQuad; CallSolveAffine; CallDecompose; CallSet (fitPatch pose)],
        Some tt)
     ∧ fitPatch pose !! "signScale" = Some (VNum s)
     ∧ (s = of_dec 5 (-2) ∨ num_lt (of_dec 5 (-2)) s = true))
  ∧ ∃ quad AB ATm ATA,
      orderQuad pts = map Some quad
      ∧ design
          (sourceCorners
             (or_else (textWorldSize env).1 (of_Z 1)
              + size * of_dec 5 (-1) * of_Z 2)%js
             (or_else (textWorldSize env).2 (of_Z 1)
              + size * of_dec 5 (-1) * of_Z 2)%js)
          (map (screenToWorld (dispW env imgW) (dispH env imgW imgH) imgW imgH) quad)
        = Some AB
      ∧ AT AB.1 = Some ATm
      ∧ mul ATm AB.1 = Some ATA
      ∧ is_Some (inv ATA)
      ∧ inv ATA = (a ← for_range 0 6 (inv_step 6) (augment ATA); Some (map (drop 6) a))
      ∧ ∀ c, c < 6 →
          ∃ a r rowr p a',
            for_range 0 c (inv_step 6) (augment ATA) = Some a
            ∧ pivot_row a 6 c = Some r
            ∧ a !! r = Some rowr
            ∧ rowr !! c = Some p
            ∧ truthy (or_else p (of_dec 1 (-9))) = true
            ∧ (truthy p = false → or_else p (of_dec 1 (-9)) = of_dec 1 (-9))
            ∧ inv_step 6 c a = Some a'
            ∧ a' !! c = Some (map (λ v, v / or_else p (of_dec 1 (-9)))%js rowr).
Proof.
  intros Hpts Hlen Hsize HimgW HimgH.
  destruct (applyFourPointFit_runs env S pts size imgW imgH)
    as (quad & aff & Hquad & Hlq & Haff & Hrun); try done.
  split.
  - exists (decomposeAffineToTRS aff). eexists. split; [done|]. split; [reflexivity|].
    apply max_at_least. apply or_else_truthy, truthy_one.
  - set (src := sourceCorners _ _) in *.
    set (tgt := map (screenToWorld _ _ _ _) quad) in *.
    assert (Hsh : shape 6 6 (mat_mul 6 (transpose 6 (design_rows src)) (design_rows src))).
    { apply mat_mul_shape. unfold transpose. by rewrite length_map, length_seq. }
    exists quad, (design_rows src, targets tgt), (transpose 6 (design_rows src)),
           (mat_mul 6 (transpose 6 (design_rows src)) (design_rows src)).
    split; [done|]. split.
    { apply design_spec; [done|]. unfold tgt. by rewrite length_map. }
    split; [apply (AT_spec 7 6), (design_rows_shape src)|].
    split.
    { apply (mul_spec 6 7 6).
      - apply transpose_shape. destruct (design_rows_shape src) as [Hl _]. exact Hl.
      - apply (design_rows_shape src). }
    split.
    { destruct (inv_total 6 _ Hsh) as (mi & -> & _). by eexists. }
    split.
    { unfold inv. destruct Hsh as [-> _]. reflexivity. }
    intros c Hc. by apply inv_pivot_divisions.
Qed.
End AppTheorems.

(** ** The laws hold in both readings *)

Section LawsInstances.
Import Exact.
Local Open Scope R_scope.

Lemma Rdec_eps : Rdec 1 (-9) = 1 / 1000000000.
Proof. reflexivity. Qed.

Lemma Rdec_floor : Rdec 5 (-2) = 5 / 100.
Proof. reflexivity. Qed.

#[export] Instance real_laws : JsNumLaws R.
Proof.
  split.
  - simpl. destruct (Req_dec_T 1 0); [lra|done].
  - change (of_dec 1 (-9)) with (Rdec 1 (-9)). rewrite Rdec_eps. simpl.
    destruct (Req_dec_T (1 / 1000000000) 0); [lra|done].
  - intros lo v _. simpl. unfold Rltb, Rmax.
    destruct (Rle_dec lo v) as [Hle|Hgt]; [|by left].
    destruct (Rlt_dec lo v) as [Hlt|Hnlt]; [by right|].
    left. lra.
Qed.
End LawsInstances.

Section Binary64Laws.
Import Binary64.
Context (Matan2 Mhypot : spec_float → spec_float → spec_float).

#[export] Instance binary64_laws : @JsNumLaws spec_float (binary64_num Matan2 Mhypot).
Proof.
  split.
  - reflexivity.
  - reflexivity.
  - intros lo v Hv. cbn [num_max num_lt binary64_num]. cbn [truthy binary64_num] in Hv.
    unfold b64_max.
    destruct (is_nan lo) eqn:Hnl; cbn [orb].
    { left. by destruct lo. }
    destruct (is_nan v) eqn:Hnv.
    { by destruct v. }
    destruct (SFltb lo v) eqn:Hlt; [by right|].
    destruct (SFltb v lo); [by left|].
    left. destruct lo as [[|] | | |]; try done; by destruct v as [[|] | | |].
Qed.
End Binary64Laws.

Section Witnesses.
Import Exact Examples.
Local Open Scope R_scope.

Lemma fit_refuses_without_four_points_witness :
  applyFourPointFit noWindow initialState = ([], Some tt)
  ∧ ∀ prev, run_calls (applyFourPointFit noWindow initialState).1 prev = prev.
Proof.
  apply (fit_refuses_without_four_points noWindow initialState []).
  - reflexivity.
  - simpl. lia.
Defined.

Lemma fit_never_raises_witness :
  (∃ pose s,
     applyFourPointFit noWindow pickedState
     = ([CallOrderQuad; CallSolveAffine; CallDecompose; CallSet (fitPatch pose)],
        Some tt)
     ∧ fitPatch pose !! "signScale" = Some (VNum s)
     ∧ (s = of_dec 5 (-2) ∨ num_lt (of_dec 5 (-2)) s = true))
  ∧ ∃ quad AB ATm ATA,
      orderQuad [Pt 100 100; Pt 500 120; Pt 480 300; Pt 90 280] = map Some quad
      ∧ design
          (sourceCorners
             (or_else (textWorldSize noWindow).1 (of_Z 1)
              + 32 * of_dec 5 (-1) * of_Z 2)%js
             (or_else (textWorldSize noWindow).2 (of_Z 1)
              + 32 * of_dec 5 (-1) * of_Z 2)%js)
          (map (screenToWorld (dispW noWindow 1600) (dispH noWindow 1600 900)
                  1600 900) quad)
        = Some AB
      ∧ AT AB.1 = Some ATm
      ∧ mul ATm AB.1 = Some ATA
      ∧ is_Some (inv ATA)
      ∧ inv ATA = (a ← for_range 0 6 (inv_step 6) (augment ATA); Some (map (drop 6) a))
      ∧ ∀ c, (c < 6)%nat →
          ∃ a r rowr p a',
            for_range 0 c (inv_step 6) (augment ATA) = Some a
            ∧ pivot_row a 6 c = Some r
            ∧ a !! r = Some rowr
            ∧ rowr !! c = Some p
            ∧ truthy (or_else p (of_dec 1 (-9))) = true
            ∧ (truthy p = false → or_else p (of_dec 1 (-9)) = of_dec 1 (-9))
            ∧ inv_step 6 c a = Some a'
            ∧ a' !! c = Some (map (λ v, v / or_else p (of_dec 1 (-9)))%js rowr).
Proof.
  apply (fit_never_raises noWindow pickedState
           [Pt 100 100; Pt 500 120; Pt 480 300; Pt 90 280] 32 1600 900);
    reflexivity.
Defined.
End Witnesses.

(** ** Exact arithmetic: sums of products *)

(** Read the operations of the interface as those of the reals. *)
Ltac rsimpl :=
  cbn [num_add num_sub num_mul num_div num_neg num_abs num_max num_min of_Z
       Exact.real_num fst snd] in *.

Section ExactDot.
Import Exact LeastSquares.
Local Open Scope R_scope.

Lemma dot_acc (l : list (R * R)) (s : R) :
  foldl (λ s vw, num_add s (num_mul vw.1 vw.2)) s l
  = s + foldl (λ s vw, num_add s (num_mul vw.1 vw.2)) 0 l.
Proof.
  revert s. induction l as [|[v w] l IH]; intros s; cbn [foldl]; [lra|].
  rewrite IH. rewrite (IH (num_add 0 _)). simpl. lra.
Qed.

Lemma dot_nil_l (v : list R) : dot [] v = 0.
Proof. done. Qed.

Lemma dot_nil_r (u : list R) : dot u [] = 0.
Proof. by destruct u. Qed.

Lemma dot_cons (x y : R) (u v : list R) : dot (x :: u) (y :: v) = x * y + dot u v.
Proof. unfold dot. cbn [zip zip_with foldl]. rewrite dot_acc. rsimpl. lra. Qed.

Lemma dot_app (u1 u2 v1 v2 : list R) :
  length u1 = length v1 → dot (u1 ++ u2) (v1 ++ v2) = dot u1 v1 + dot u2 v2.
Proof.
  revert v1. induction u1 as [|x u1 IH]; intros [|y v1] Hlen; simpl in *; try lia.
  - rewrite dot_nil_l. lra.
  - rewrite !dot_cons, IH by lia. lra.
Qed.

Lemma dot_app_l (u1 u2 v : list R) :
  length u1 = length v → dot (u1 ++ u2) v = dot u1 v.
Proof.
  intros Hlen. rewrite <- (app_nil_r v) at 1.
  rewrite dot_app, dot_nil_r by done. lra.
Qed.

Lemma dot_scale (d : R) (u x : list R) :
  dot (map (λ v, num_div v d) u) x = dot u x / d.
Proof.
  revert x. induction u as [|v u IH]; intros [|y x]; simpl;
    rewrite ?dot_nil_l, ?dot_nil_r; try (unfold Rdiv; lra).
  rewrite !dot_cons, IH. simpl. unfold Rdiv. lra.
Qed.

Lemma dot_axpy (f : R) (rc r x : list R) :
  length rc = length r → dot (axpy f rc r) x = dot r x - f * dot rc x.
Proof.
  revert rc x. induction r as [|v r IH]; intros [|w rc] x Hlen; simpl in *; try lia.
  - rewrite !dot_nil_l. lra.
  - destruct x as [|y x]; [rewrite !dot_nil_r; lra|].
    unfold axpy in *. simpl. rewrite !dot_cons, IH by lia. lra.
Qed.

Lemma dot_opp_r (u v : list R) : dot u (map Ropp v) = - dot u v.
Proof.
  revert v. induction u as [|x u IH]; intros [|y v]; simpl;
    rewrite ?dot_nil_l, ?dot_nil_r; try lra.
  rewrite !dot_cons, IH. lra.
Qed.

Lemma dot_zeros_r (u v : list R) : Forall (λ y, y = 0) v → dot u v = 0.
Proof.
  intros Hv. revert u. induction Hv as [|y v -> _ IH]; intros [|x u];
    rewrite ?dot_nil_l, ?dot_nil_r; try lra.
  rewrite dot_cons, IH. lra.
Qed.

(** The product with a row of zeros and one 1, from either side. *)
Lemma dot_unit_l_gen (i s m : nat) (v : list R) :
  length v = m →
  dot (map (λ j, if Nat.eqb i j then 1 else 0) (seq s m)) v
  = if ((s <=? i) && (i <? s + m))%nat then nth (i - s)%nat v 0 else 0.
Proof.
  revert s v. induction m as [|m IH]; intros s [|y v] Hlen; simpl in Hlen; try lia.
  - simpl. rewrite dot_nil_l.
    destruct (Nat.leb_spec s i), (Nat.ltb_spec i (s + 0)); simpl; try lia; done.
  - cbn [seq map]. rewrite dot_cons, IH by lia.
    destruct (Nat.eqb_spec i s) as [->|Hne].
    + rewrite Nat.sub_diag. simpl nth.
      destruct (Nat.leb_spec (S s) s), (Nat.leb_spec s s),
               (Nat.ltb_spec s (s + S m)); simpl; try lia; lra.
    + destruct (Nat.leb_spec (S s) i), (Nat.leb_spec s i),
               (Nat.ltb_spec i (S s + m)), (Nat.ltb_spec i (s + S m));
        simpl; try lia; try lra.
      replace (i - s)%nat with (S (i - S s)) by lia. simpl. lra.
Qed.

Lemma dot_unit_l (n i : nat) (v : list R) (y : R) :
  length v = n → v !! i = Some y → dot (unit_vector n i) v = y.
Proof.
  intros Hlen Hy. unfold unit_vector. rewrite dot_unit_l_gen by done.
  pose proof (lookup_lt_Some _ _ _ Hy) as Hi.
  destruct (Nat.ltb_spec i (0 + n)); [|simpl in *; lia]. simpl.
  rewrite Nat.sub_0_r. by apply nth_lookup_Some.
Qed.

Lemma dot_comm (u v : list R) : dot u v = dot v u.
Proof.
  revert v. induction u as [|x u IH]; intros [|y v];
    rewrite ?dot_nil_l, ?dot_nil_r; try lra.
  rewrite !dot_cons, IH. lra.
Qed.

Lemma dot_unit_r (n i : nat) (u : list R) (y : R) :
  length u = n → u !! i = Some y → dot u (unit_vector n i) = y.
Proof. intros. rewrite dot_comm. by apply dot_unit_l. Qed.

Lemma dot_zeros_l (u v : list R) : Forall (λ y, y = 0) u → dot u v = 0.
Proof. intros. rewrite dot_comm. by apply dot_zeros_r. Qed.

Lemma dot_map_add {X : Type} (f g : X → R) (l : list X) (x : list R) :
  dot (map (λ j, f j + g j) l) x = dot (map f l) x + dot (map g l) x.
Proof.
  revert x. induction l as [|j l IH]; intros [|y x]; simpl;
    rewrite ?dot_nil_l, ?dot_nil_r; try lra.
  rewrite !dot_cons, IH. lra.
Qed.

Lemma dot_map_scale {X : Type} (a : R) (f : X → R) (l : list X) (x : list R) :
  dot (map (λ j, a * f j) l) x = a * dot (map f l) x.
Proof.
  revert x. induction l as [|j l IH]; intros [|y x]; simpl;
    rewrite ?dot_nil_l, ?dot_nil_r; try lra.
  rewrite !dot_cons, IH. lra.
Qed.

Lemma tabulate_lookup (r : list R) (c : nat) :
  length r = c → map (λ j, r !!! j) (seq 0 c) = r.
Proof.
  intros Hlen. apply list_eq. intros i. rewrite list_lookup_fmap.
  destruct (decide (i < c)%nat) as [Hi|Hi].
  - rewrite lookup_seq_lt by done. simpl.
    symmetry. apply list_lookup_lookup_total_lt. lia.
  - rewrite lookup_seq_ge by lia. simpl. symmetry. apply lookup_ge_None. lia.
Qed.

(** Associativity of the products, a row at a time. *)
Lemma dot_mat_vec (u : list R) (m : list (list R)) (x : list R) (c : nat) :
  length u = length m → Forall (λ row, length row = c) m →
  dot u (mat_vec m x) = dot (map (λ j, dot u (column j m)) (seq 0 c)) x.
Proof.
  revert u. induction m as [|r0 m IH]; intros [|u0 u] Hlen Hrows;
    simpl in Hlen; try lia.
  - simpl. rewrite dot_nil_l. symmetry. apply dot_zeros_l.
    apply Forall_fmap, Forall_forall. intros j _. reflexivity.
  - apply Forall_cons in Hrows as [Hr0 Hrows].
    cbn [mat_vec map]. rewrite dot_cons. fold (mat_vec m x).
    rewrite IH by (done || lia).
    transitivity (dot (map (λ j, u0 * (r0 !!! j) + dot u (column j m)) (seq 0 c)) x).
    + rewrite dot_map_add, dot_map_scale, (tabulate_lookup r0 c Hr0). lra.
    + f_equal. apply map_ext. intros j. unfold column. cbn [map].
      by rewrite dot_cons.
Qed.

Lemma mat_vec_assoc (r k c : nat) (m1 m2 : list (list R)) (x : list R) :
  shape r k m1 → shape k c m2 →
  mat_vec m1 (mat_vec m2 x) = mat_vec (mat_mul c m1 m2) x.
Proof.
  intros [_ H1] [Hk H2]. unfold mat_vec at 1 3, mat_mul.
  rewrite map_map. apply map_ext_Forall.
  eapply Forall_impl; [exact H1|]. intros u Hu. simpl in *.
  apply dot_mat_vec; [lia|done].
Qed.

Lemma mat_vec_identity (n : nat) (x : list R) :
  length x = n → mat_vec (identity n) x = x.
Proof.
  intros Hlen. apply list_eq. intros i. unfold mat_vec, identity.
  rewrite !list_lookup_fmap.
  destruct (decide (i < n)%nat) as [Hi|Hi].
  - rewrite lookup_seq_lt by done. simpl.
    destruct (lookup_lt_is_Some_2 x i) as [y Hy]; [lia|].
    by rewrite Hy, (dot_unit_l n i x y).
  - rewrite lookup_seq_ge by lia. simpl. symmetry. apply lookup_ge_None. lia.
Qed.

Lemma column_mat_mul (c j : nat) (m n : list (list R)) :
  (j < c)%nat → column j (mat_mul c m n) = mat_vec m (column j n).
Proof.
  intros Hj. unfold column at 1, mat_mul, mat_vec. rewrite map_map.
  apply map_ext. intros r.
  apply list_lookup_total_correct. rewrite list_lookup_fmap.
  by rewrite lookup_seq_lt.
Qed.

Lemma column_identity (n j : nat) : (j < n)%nat → column j (identity n) = unit_vector n j.
Proof.
  intros Hj. unfold column, identity, unit_vector. rewrite map_map.
  apply map_ext_in. intros i Hi. apply in_seq in Hi.
  apply list_lookup_total_correct. rewrite list_lookup_fmap.
  rewrite lookup_seq_lt by done. simpl.
  by rewrite (Nat.eqb_sym i j).
Qed.

Lemma column_length (j : nat) (m : list (list R)) : length (column j m) = length m.
Proof. unfold column. by rewrite length_map. Qed.

Lemma column_lookup (j i : nat) (m : list (list R)) (row : list R) (y : R) :
  m !! i = Some row → row !! j = Some y → column j m !! i = Some y.
Proof.
  intros Hrow Hy. unfold column. rewrite list_lookup_fmap, Hrow. simpl.
  f_equal. by apply list_lookup_total_correct.
Qed.
End ExactDot.

(** ** Exact arithmetic: the Gauss-Jordan loop inverts *)

Section GaussJordan.
Import Exact LeastSquares.
Local Open Scope R_scope.
Local Abbreviation matrix := (list (list R)).

Lemma truthy_nonzero (p : R) : p ≠ 0 → truthy p = true.
Proof. intros Hp. simpl. by destruct (Req_dec_T p 0). Qed.

Lemma or_else_nonzero (p e : R) : p ≠ 0 → or_else p e = p.
Proof. intros Hp. unfold or_else. by rewrite truthy_nonzero. Qed.

Lemma elem_of_augment (m : matrix) (row : list R) :
  row ∈ augment m →
  ∃ i r, m !! i = Some r ∧ row = r ++ unit_vector (length m) i.
Proof.
  intros Hrow. apply list_elem_of_lookup in Hrow as [i Hi].
  unfold augment in Hi. rewrite list_lookup_imap in Hi.
  destruct (m !! i) as [r|] eqn:Hr; simpl in Hi; [|done].
  injection Hi as <-. by exists i, r.
Qed.

Lemma mat_vec_lookup (m : matrix) (x : list R) i r :
  m !! i = Some r → mat_vec m x !! i = Some (dot r x).
Proof. intros Hr. unfold mat_vec. by rewrite list_lookup_fmap, Hr. Qed.

Lemma mat_vec_length (m : matrix) (x : list R) : length (mat_vec m x) = length m.
Proof. unfold mat_vec. by rewrite length_map. Qed.

Lemma gj_init (n : nat) (m mi : matrix) :
  shape n n m → inverse_of n m mi → gj_invariant n m 0 (augment m).
Proof.
  intros Hm (Hmi & Hleft & _). pose proof Hm as [Hn Hrows].
  split; [by apply augment_shape|]. split; [|split].
  - intros x row Hx Hrow.
    apply elem_of_augment in Hrow as (i & r & Hr & ->).
    destruct (shape_lookup _ _ _ _ _ Hm Hr) as [Hlr Hi].
    rewrite dot_app by lia. rewrite Hn.
    rewrite (dot_unit_l n i _ (- dot r x)).
    + lra.
    + by rewrite length_map, mat_vec_length.
    + by rewrite list_lookup_fmap, (mat_vec_lookup _ _ _ _ Hr).
  - intros x Hx Hall.
    assert (Hz : Forall (λ y, y = 0) (mat_vec m x)).
    { apply Forall_fmap, Forall_lookup. intros i r Hr. simpl.
      destruct (shape_lookup _ _ _ _ _ Hm Hr) as [Hlr Hi].
      rewrite <- (dot_app_l r (unit_vector (length m) i) x) by lia.
      apply Hall. apply list_elem_of_lookup. exists i.
      unfold augment. by rewrite list_lookup_imap, Hr. }
    rewrite <- (mat_vec_identity n x Hx), <- Hleft.
    rewrite <- (mat_vec_assoc n n n mi m x Hmi Hm).
    apply Forall_fmap, Forall_forall. intros u _. simpl. by apply dot_zeros_r.
  - intros i k row Hk. lia.
Qed.

(** The rows of the matrix after a column step. *)
Lemma reduce_column_pivot_row c r (rowc rowr : list R) p (a : matrix) :
  (c < length a)%nat →
  reduce_column c r rowc rowr p a !! c
  = Some (map (λ v, v / or_else p (of_dec 1 (-9))) rowr).
Proof.
  intros Hc. unfold reduce_column. rewrite list_lookup_imap.
  rewrite list_lookup_insert_eq by (by rewrite !length_insert).
  simpl. by rewrite Nat.eqb_refl.
Qed.

Lemma reduce_column_swapped_row c r (rowc rowr : list R) p (a : matrix) :
  r ≠ c → (r < length a)%nat →
  reduce_column c r rowc rowr p a !! r
  = Some (clear_entry c (map (λ v, v / or_else p (of_dec 1 (-9))) rowr) rowc).
Proof.
  intros Hrc Hr. unfold reduce_column. rewrite list_lookup_imap.
  rewrite list_lookup_insert_ne by done.
  rewrite list_lookup_insert_eq by (by rewrite !length_insert).
  simpl. by destruct (Nat.eqb_spec r c).
Qed.

Lemma reduce_column_other_row c r (rowc rowr : list R) p (a : matrix) i ri :
  i ≠ c → i ≠ r → a !! i = Some ri →
  reduce_column c r rowc rowr p a !! i
  = Some (clear_entry c (map (λ v, v / or_else p (of_dec 1 (-9))) rowr) ri).
Proof.
  intros Hic Hir Hi. unfold reduce_column. rewrite list_lookup_imap.
  rewrite !list_lookup_insert_ne by done. rewrite Hi.
  simpl. by destruct (Nat.eqb_spec i c).
Qed.

Lemma clear_entry_dot c (rc r0 x : list R) f :
  length rc = length r0 → r0 !! c = Some f →
  dot (clear_entry c rc r0) x = dot r0 x - f * dot rc x.
Proof. intros Hlen Hf. unfold clear_entry. rewrite Hf. by apply dot_axpy. Qed.

Lemma clear_entry_lookup c (rc r0 : list R) f k v w :
  r0 !! c = Some f → r0 !! k = Some v → rc !! k = Some w →
  clear_entry c rc r0 !! k = Some (v - f * w).
Proof.
  intros Hf Hv Hw. unfold clear_entry, axpy. rewrite Hf.
  by rewrite lookup_zip_with, Hv, Hw.
Qed.

(** The pivot that the row search finds is not zero, while the matrix to
    invert has an inverse. *)
Lemma gj_pivot_nonzero n (m a : matrix) c r rowr p :
  gj_invariant n m c a → (c < n)%nat →
  a !! r = Some rowr → rowr !! c = Some p →
  (∀ i row v, (c ≤ i < n)%nat → a !! i = Some row → row !! c = Some v →
              Rabs v <= Rabs p) →
  p ≠ 0.
Proof.
  intros (Hsh & _ & Hinj & Hunit) Hc Hr Hp Hmax Hp0. subst p.
  set (col := column c a).
  set (x := map (λ k, - (col !!! k)) (seq 0 c) ++ [1] ++ replicate (n - c - 1) 0).
  assert (Hx : length x = n).
  { unfold x. rewrite !length_app, length_map, length_seq, length_replicate.
    simpl. lia. }
  assert (Hzero : Forall (λ y, y = 0) x).
  { apply Hinj; [done|]. intros row Hrow.
    apply list_elem_of_lookup in Hrow as [i Hi].
    destruct (shape_lookup _ _ _ _ _ Hsh Hi) as [Hl Hin].
    destruct (lookup_lt_is_Some_2 row c) as [v Hv]; [lia|].
    rewrite <- (take_drop c row). unfold x.
    rewrite dot_app by (rewrite length_take, length_map, length_seq; lia).
    rewrite (drop_S row v c Hv). cbn [app]. rewrite dot_cons.
    rewrite (dot_zeros_r _ (replicate _ _))
      by (apply Forall_forall; intros y Hy; by apply elem_of_replicate in Hy as [-> _]).
    assert (Htake : take c row = map (λ j, if Nat.eqb i j then 1 else 0) (seq 0 c)).
    { apply list_eq. intros k. rewrite list_lookup_fmap.
      destruct (decide (k < c)%nat) as [Hk|Hk].
      - rewrite lookup_take_lt, lookup_seq_lt by done. simpl.
        by apply (Hunit i k row).
      - rewrite lookup_take_ge, lookup_seq_ge by lia. done. }
    rewrite Htake, dot_unit_l_gen by (by rewrite length_map, length_seq).
    assert (Hcol : col !!! i = v).
    { apply list_lookup_total_correct. by apply (column_lookup c i a row v). }
    destruct (Nat.ltb_spec i (0 + c)) as [Hlt|Hge]; simpl.
    - rewrite Nat.sub_0_r.
      rewrite (nth_lookup_Some _ i 0 (- v)); [lra|].
      rewrite list_lookup_fmap, lookup_seq_lt by lia. simpl. by rewrite Hcol.
    - assert (Hv0 : Rabs v <= Rabs 0) by (apply (Hmax i row v); (done || lia)).
      rewrite Rabs_R0 in Hv0. pose proof (Rabs_pos v) as Hv1.
      assert (Rabs v = 0) as Habs by lra.
      destruct (Req_dec v 0) as [->|Hne]; [lra|].
      by apply Rabs_no_R0 in Hne. }
  assert (Hxc : x !! c = Some 1).
  { unfold x. rewrite lookup_app_r by (rewrite length_map, length_seq; lia).
    rewrite length_map, length_seq, Nat.sub_diag. done. }
  pose proof (Forall_lookup_1 _ _ _ _ Hzero Hxc) as H10. simpl in H10. lra.
Qed.

(** The row search returns a row of largest magnitude in column [c]. *)
Lemma pivot_row_max n (a : matrix) c :
  shape n (2 * n) a → (c < n)%nat →
  ∃ r, pivot_row a n c = Some r ∧ (c ≤ r < n)%nat
       ∧ ∀ k rk vk rr vr, (c ≤ k < n)%nat →
           a !! k = Some rk → rk !! c = Some vk →
           a !! r = Some rr → rr !! c = Some vr → Rabs vk <= Rabs vr.
Proof.
  intros Hsh Hc.
  apply (pivot_row_spec
    (λ i r, ∀ k rk vk rr vr, (c ≤ k < i)%nat →
       a !! k = Some rk → rk !! c = Some vk →
       a !! r = Some rr → rr !! c = Some vr → Rabs vk <= Rabs vr) a n c Hsh Hc).
  - intros k rk vk rr vr Hk Hrk Hvk Hrr Hvr.
    assert (k = c) as -> by lia. rewrite Hrk in Hrr. injection Hrr as <-.
    rewrite Hvk in Hvr. injection Hvr as <-. lra.
  - intros i r aic arc Hi Hr HQ Haic Harc k rk vk rr vr Hk Hrk Hvk Hrr Hvr.
    unfold get2 in Haic, Harc.
    destruct (a !! i) as [rowi|] eqn:Hrowi; simpl in Haic; [|done].
    destruct (a !! r) as [rowr|] eqn:Hrowr; simpl in Harc; [|done].
    simpl in Hrr. unfold Rltb in Hrr.
    destruct (Rlt_dec (Rabs arc) (Rabs aic)) as [Hlt|Hnlt].
    + rewrite Hrowi in Hrr. injection Hrr as <-.
      rewrite Haic in Hvr. injection Hvr as <-.
      destruct (decide (k = i)) as [->|Hki].
      * rewrite Hrowi in Hrk. injection Hrk as <-.
        rewrite Haic in Hvk. injection Hvk as <-. lra.
      * pose proof (HQ k rk vk rowr arc) as HQ'.
        assert (Rabs vk <= Rabs arc) by (apply HQ'; (done || lia)). lra.
    + rewrite Hrowr in Hrr. injection Hrr as <-.
      rewrite Harc in Hvr. injection Hvr as <-.
      destruct (decide (k = i)) as [->|Hki].
      * rewrite Hrowi in Hrk. injection Hrk as <-.
        rewrite Haic in Hvk. injection Hvk as <-. lra.
      * apply (HQ k rk vk rowr arc); (done || lia).
Qed.

(** One column step keeps the invariant. *)
Lemma gj_step n (m a : matrix) c :
  gj_invariant n m c a → (c < n)%nat →
  ∃ a', inv_step n c a = Some a' ∧ gj_invariant n m (S c) a'.
Proof.
  intros HI Hc. pose proof HI as (Hsh & Hlin & Hinj & Hunit).
  destruct (pivot_row_max n a c Hsh Hc) as (r & Hpiv & Hr & Hmax).
  destruct (lookup_lt_is_Some_2 a c) as [rowc Hrowc]; [destruct Hsh; lia|].
  destruct (lookup_lt_is_Some_2 a r) as [rowr Hrowr]; [destruct Hsh; lia|].
  destruct (shape_lookup _ _ _ _ _ Hsh Hrowc) as [Hlc _].
  destruct (shape_lookup _ _ _ _ _ Hsh Hrowr) as [Hlr _].
  destruct (lookup_lt_is_Some_2 rowr c) as [p Hp]; [lia|].
  assert (Hp0 : p ≠ 0).
  { apply (gj_pivot_nonzero n m a c r rowr p HI Hc Hrowr Hp).
    intros i row v Hi Hrow Hv. by apply (Hmax i row v rowr p). }
  exists (reduce_column c r rowc rowr p a).
  split; [by apply (inv_step_spec n c r a rowc rowr p)|].
  assert (Hla : length a = n) by (by destruct Hsh).
  set (rowc' := map (λ v, v / or_else p (of_dec 1 (-9))) rowr).
  assert (Hlc' : length rowc' = (2 * n)%nat) by (unfold rowc'; by rewrite length_map).
  assert (Hdotc : ∀ x, dot rowc' x = dot rowr x / p).
  { intros x. unfold rowc'. rewrite or_else_nonzero by done. apply dot_scale. }
  assert (Hentc : ∀ k v, rowr !! k = Some v → rowc' !! k = Some (v / p)).
  { intros k v Hv. unfold rowc'. rewrite or_else_nonzero by done.
    by rewrite list_lookup_fmap, Hv. }
  assert (Hrowr0 : ∀ k, (k < c)%nat → rowr !! k = Some 0).
  { intros k Hk. rewrite (Hunit r k rowr Hk Hrowr).
    destruct (Nat.eqb_spec r k); [lia|done]. }
  assert (Hrows : ∀ i row', reduce_column c r rowc rowr p a !! i = Some row' →
    (i = c ∧ row' = rowc')
    ∨ (i ≠ c ∧ ∃ r0, r0 ∈ a
         ∧ (∀ k, (k < c)%nat → r0 !! k = Some (if Nat.eqb i k then 1 else 0))
         ∧ row' = clear_entry c rowc' r0)).
  { intros i row' Hi.
    assert (Hin : (i < n)%nat).
    { apply lookup_lt_Some in Hi. unfold reduce_column in Hi.
      rewrite length_imap, !length_insert in Hi. lia. }
    destruct (decide (i = c)) as [->|Hic].
    - left. rewrite reduce_column_pivot_row in Hi by lia.
      injection Hi as <-. done.
    - right. split; [done|]. destruct (decide (i = r)) as [->|Hir].
      + rewrite reduce_column_swapped_row in Hi by (done || lia).
        injection Hi as <-. exists rowc. split; [|split; [|done]].
        * apply list_elem_of_lookup. by exists c.
        * intros k Hk. rewrite (Hunit c k rowc Hk Hrowc).
          destruct (Nat.eqb_spec c k), (Nat.eqb_spec r k); (done || lia).
      + destruct (lookup_lt_is_Some_2 a i) as [ri Hri]; [lia|].
        rewrite (reduce_column_other_row c r rowc rowr p a i ri) in Hi by done.
        injection Hi as <-. exists ri. split; [|split; [|done]].
        * apply list_elem_of_lookup. by exists i.
        * intros k Hk. by apply (Hunit i k ri). }
  assert (Hlen0 : ∀ r0, r0 ∈ a → length r0 = (2 * n)%nat).
  { intros r0 Hr0. destruct Hsh as [_ Hall].
    by apply (proj1 (Forall_forall _ _) Hall). }
  split; [by apply reduce_column_shape|]. split; [|split].
  - (* the linear relation *)
    intros x row' Hx Hrow'. apply list_elem_of_lookup in Hrow' as [i Hi].
    destruct (Hrows i row' Hi) as [[-> ->]|(Hic & r0 & Hr0 & _ & ->)].
    + rewrite Hdotc, (Hlin x rowr Hx) by (apply list_elem_of_lookup; by exists r).
      unfold Rdiv. lra.
    + destruct (lookup_lt_is_Some_2 r0 c) as [f Hf]; [rewrite (Hlen0 r0 Hr0); lia|].
      rewrite (clear_entry_dot c rowc' r0 _ f) by (rewrite ?(Hlen0 r0 Hr0); done).
      rewrite Hdotc, (Hlin x r0 Hx Hr0).
      rewrite (Hlin x rowr Hx) by (apply list_elem_of_lookup; by exists r).
      unfold Rdiv. lra.
  - (* no vector but zero is annihilated *)
    intros x Hx Hall. apply Hinj; [done|].
    assert (Hmem : ∀ i row', reduce_column c r rowc rowr p a !! i = Some row' →
                             dot row' x = 0).
    { intros i row' Hi. apply Hall, list_elem_of_lookup. by exists i. }
    assert (Hc0 : dot rowc' x = 0).
    { apply (Hmem c). apply reduce_column_pivot_row. lia. }
    assert (Hr0 : dot rowr x = 0).
    { rewrite Hdotc in Hc0. unfold Rdiv in Hc0.
      apply Rmult_integral in Hc0 as [?|Hinv0]; [done|].
      by apply Rinv_neq_0_compat in Hinv0. }
    assert (Hclear : ∀ r0, length r0 = (2 * n)%nat →
              dot (clear_entry c rowc' r0) x = 0 → dot r0 x = 0).
    { intros r0 Hl0 Hd.
      destruct (lookup_lt_is_Some_2 r0 c) as [f Hf]; [lia|].
      rewrite (clear_entry_dot c rowc' r0 _ f) in Hd by (done || lia).
      rewrite Hc0 in Hd. lra. }
    intros row Hrow. apply list_elem_of_lookup in Hrow as [j Hj].
    destruct (decide (j = r)) as [->|Hjr].
    { rewrite Hrowr in Hj. by injection Hj as <-. }
    destruct (decide (j = c)) as [->|Hjc].
    + rewrite Hrowc in Hj. injection Hj as <-.
      apply Hclear; [done|]. apply (Hmem r).
      apply reduce_column_swapped_row; (done || lia).
    + apply Hclear.
      * apply Hlen0, list_elem_of_lookup. by exists j.
      * apply (Hmem j). by apply reduce_column_other_row.
  - (* the columns up to [c] are those of the identity *)
    intros i k row' Hk Hi.
    destruct (Hrows i row' Hi) as [[-> ->]|(Hic & r0 & Hr0 & Hr0k & ->)].
    + destruct (decide (k = c)) as [->|Hkc].
      * rewrite (Hentc c p Hp), Nat.eqb_refl. f_equal. by field.
      * rewrite (Hentc k 0) by (apply Hrowr0; lia).
        destruct (Nat.eqb_spec c k); [lia|]. f_equal. by field.
    + destruct (lookup_lt_is_Some_2 r0 c) as [f Hf]; [rewrite (Hlen0 r0 Hr0); lia|].
      destruct (decide (k = c)) as [->|Hkc].
      * rewrite (clear_entry_lookup c rowc' r0 f c f (p / p)); try done.
        -- destruct (Nat.eqb_spec i c); [lia|]. f_equal. by field.
        -- by apply Hentc.
      * rewrite (clear_entry_lookup c rowc' r0 f k
                   (if Nat.eqb i k then 1 else 0) (0 / p)); try done.
        -- f_equal. by field.
        -- apply Hr0k. lia.
        -- apply Hentc, Hrowr0. lia.
Qed.

(** When every column is done, the right half is the inverse. *)
Lemma gj_final n (m mi a : matrix) :
  shape n n m → inverse_of n m mi → gj_invariant n m n a → map (drop n) a = mi.
Proof.
  intros Hm (Hmi & _ & Hright) (Hsh & Hlin & _ & Hunit).
  apply list_eq. intros i. rewrite list_lookup_fmap.
  destruct (decide (i < n)%nat) as [Hi|Hi].
  2:{ destruct Hsh as [Hla _], Hmi as [Hlmi _].
      rewrite (lookup_ge_None_2 a i), (lookup_ge_None_2 mi i) by lia. done. }
  destruct (lookup_lt_is_Some_2 a i) as [row Hrow]; [destruct Hsh; lia|].
  destruct (lookup_lt_is_Some_2 mi i) as [u Hu]; [destruct Hmi; lia|].
  destruct (shape_lookup _ _ _ _ _ Hsh Hrow) as [Hlrow _].
  destruct (shape_lookup _ _ _ _ _ Hmi Hu) as [Hlu _].
  rewrite Hrow, Hu. simpl. f_equal.
  apply list_eq. intros j. rewrite lookup_drop.
  destruct (decide (j < n)%nat) as [Hj|Hj].
  2:{ rewrite (lookup_ge_None_2 row), (lookup_ge_None_2 u) by lia. done. }
  destruct (lookup_lt_is_Some_2 row (n + j)) as [w Hw]; [lia|].
  destruct (lookup_lt_is_Some_2 u j) as [y Hy]; [lia|].
  rewrite Hw, Hy. f_equal.
  assert (Hxl : length (column j mi) = n).
  { rewrite column_length. by destruct Hmi. }
  assert (Hin : row ∈ a) by (apply list_elem_of_lookup; by exists i).
  pose proof (Hlin (column j mi) row Hxl Hin) as Hrel.
  rewrite <- (take_drop n row) in Hrel.
  rewrite dot_app in Hrel by (rewrite length_take; lia).
  rewrite dot_opp_r in Hrel.
  assert (Htake : take n row = unit_vector n i).
  { apply list_eq. intros k. unfold unit_vector. rewrite list_lookup_fmap.
    destruct (decide (k < n)%nat) as [Hk|Hk].
    - rewrite lookup_take_lt, lookup_seq_lt by done. simpl.
      by apply (Hunit i k row).
    - rewrite lookup_take_ge, lookup_seq_ge by lia. done. }
  rewrite Htake in Hrel.
  rewrite (dot_unit_l n i (column j mi) y Hxl) in Hrel
    by (by apply (column_lookup j i mi u y)).
  rewrite <- (column_mat_mul n j m mi Hj), Hright, (column_identity n j Hj) in Hrel.
  rewrite (dot_unit_r n j (drop n row) w) in Hrel.
  - lra.
  - rewrite length_drop. lia.
  - by rewrite lookup_drop.
Qed.

(** In exact arithmetic [inv] returns the inverse of a matrix that has
    one. *)
Lemma inv_correct n (m mi : matrix) :
  shape n n m → inverse_of n m mi → inv m = Some mi.
Proof.
  intros Hm Hinv. unfold inv. fold (augment m).
  destruct Hm as [Hn Hrows]. rewrite Hn.
  destruct (for_range_inv (gj_invariant n m) (inv_step n) n 0 (augment m))
    as (a & Ha & HI).
  - by apply (gj_init n m mi).
  - intros c a Hc HI. apply gj_step; [done|lia].
  - rewrite Ha. simpl. f_equal. by apply (gj_final n m mi a).
Qed.
End GaussJordan.

(** ** Exact arithmetic: [solveAffine] solves the normal equations *)

Section LeastSquaresFacts.
Import Exact LeastSquares.
Local Open Scope R_scope.
Local Abbreviation matrix := (list (list R)).

Lemma column_singletons (b : list R) : column 0 (map (λ v, [v]) b) = b.
Proof. unfold column. rewrite map_map. simpl. apply map_id. Qed.

Lemma mat_mul_vector (m : matrix) (b : list R) :
  map (λ r : list R, r !!! 0%nat) (mat_mul 1 m (map (λ v, [v]) b)) = mat_vec m b.
Proof.
  unfold mat_mul, mat_vec. rewrite map_map. apply map_ext. intros r. simpl.
  by rewrite column_singletons.
Qed.

Lemma mat_mul_vector_column (m : matrix) (b : list R) :
  mat_mul 1 m (map (λ v, [v]) b) = map (λ v, [v]) (mat_vec m b).
Proof.
  unfold mat_mul, mat_vec. rewrite map_map. apply map_ext. intros r. simpl.
  by rewrite column_singletons.
Qed.

(** With the inverse of AᵗA at hand, [solveAffine] returns (AᵗA)⁻¹ Aᵗ B. *)
Lemma solveAffine_normal (from to : list (Point R)) (mi : matrix) :
  length from = 4%nat → length to = 4%nat →
  inverse_of 6 (mat_mul 6 (transpose 6 (design_rows from)) (design_rows from)) mi →
  solveAffine from to
  = affine_of (mat_vec mi (mat_vec (transpose 6 (design_rows from)) (targets to))).
Proof.
  intros Hf Ht Hinv.
  assert (Hsh : shape 6 6 (mat_mul 6 (transpose 6 (design_rows from)) (design_rows from))).
  { apply mat_mul_shape. unfold transpose. by rewrite length_map, length_seq. }
  rewrite (solveAffine_form from to mi Hf Ht (inv_correct 6 _ mi Hsh Hinv))
    by (by destruct Hinv).
  by rewrite mat_mul_vector_column, mat_mul_vector.
Qed.



Lemma rectangle_inverse_correct (W H : R) :
  W ≠ 0 → H ≠ 0 →
  inverse_of 6 (mat_mul 6 (transpose 6 (design_rows (sourceCorners W H)))
                          (design_rows (sourceCorners W H)))
             (rectangle_inverse W H).
Proof.
  intros HW HH. split; [|split].
  - split; [done|]. by repeat constructor.
  - cbv [mat_mul transpose design_rows sourceCorners rectangle_inverse identity
         unit_vector flat_map app map seq column dot zip zip_with foldl fst snd
         lookup_total list_lookup_total px py Nat.eqb
         num_add num_mul num_div num_neg of_Z real_num].
    repeat (f_equal; try (field; done)).
  - cbv [mat_mul transpose design_rows sourceCorners rectangle_inverse identity
         unit_vector flat_map app map seq column dot zip zip_with foldl fst snd
         lookup_total list_lookup_total px py Nat.eqb
         num_add num_mul num_div num_neg of_Z real_num].
    repeat (f_equal; try (field; done)).
Qed.

(** The fit of four targets to the corners of a centred rectangle, in
    closed form. *)
Lemma solveAffine_rectangle (W H : R) (q0 q1 q2 q3 : Point R) :
  W ≠ 0 → H ≠ 0 →
  solveAffine (sourceCorners W H) [q0; q1; q2; q3]
  = Some (MkAffine
      ((- px q0 + px q1 + px q2 - px q3) / (2 * W))
      ((- px q0 - px q1 + px q2 + px q3) / (2 * H))
      ((px q0 + px q1 + px q2 + px q3) / 4)
      ((- py q0 + py q1 + py q2 - py q3) / (2 * W))
      ((- py q0 - py q1 + py q2 + py q3) / (2 * H))
      ((py q0 + py q1 + py q2 + py q3) / 4)).
Proof.
  intros HW HH.
  rewrite (solveAffine_normal _ _ (rectangle_inverse W H)); try done.
  2:{ by apply rectangle_inverse_correct. }
  destruct q0 as [X0 Y0], q1 as [X1 Y1], q2 as [X2 Y2], q3 as [X3 Y3].
  cbv [affine_of mat_vec transpose design_rows targets sourceCorners
       rectangle_inverse flat_map app map seq column dot zip zip_with foldl
       fst snd lookup_total list_lookup_total px py
       num_add num_mul num_div num_neg of_Z real_num].
  f_equal. f_equal; field; done.
Qed.






End LeastSquaresFacts.

(** ** Exact arithmetic: the pose of a similarity *)

Section Similarity.
Import Exact LeastSquares.
Local Open Scope R_scope.










End Similarity.

(** ** Exact arithmetic: the order that [orderQuad] returns *)

Section OrderQuadExact.
Import Exact.
Local Open Scope R_scope.
Context {A : Type} (xy : A → Point R).

Lemma angle_cmp_lt (c : R * R) (a b : A) :
  num_lt (angle_cmp xy c a b) (of_Z 0) = true ↔ angle xy c a < angle xy c b.
Proof.
  unfold angle_cmp. rsimpl. cbn [num_lt real_num]. unfold Rltb.
  destruct (Rlt_dec (angle xy c a - angle xy c b) 0); split; intros; (done || lra).
Qed.

Lemma sort_insert_sorted (c : R * R) (v : A) (l : list A) :
  StronglySorted (λ a b, angle xy c a <= angle xy c b) l →
  StronglySorted (λ a b, angle xy c a <= angle xy c b)
                 (sort_insert (angle_cmp xy c) v l).
Proof.
  induction 1 as [|e l Hl IH He]; cbn [sort_insert].
  - by repeat constructor.
  - destruct (num_lt (angle_cmp xy c v e) (of_Z 0)) eqn:Hlt.
    + apply angle_cmp_lt in Hlt. constructor; [by constructor|].
      constructor; [lra|].
      eapply Forall_impl; [exact He|]. intros x Hx. simpl in *. lra.
    + assert (Hge : angle xy c e <= angle xy c v).
      { destruct (Rle_dec (angle xy c e) (angle xy c v)) as [|Hn]; [done|].
        assert (Hlt' : angle xy c v < angle xy c e) by lra.
        apply angle_cmp_lt in Hlt'. congruence. }
      constructor; [done|].
      rewrite sort_insert_Permutation. by constructor.
Qed.

Lemma sort_sorted (c : R * R) (l : list A) :
  StronglySorted (λ a b, angle xy c a <= angle xy c b) (sort (angle_cmp xy c) l).
Proof.
  unfold sort.
  assert (Hgen : ∀ acc,
    StronglySorted (λ a b, angle xy c a <= angle xy c b) acc →
    StronglySorted (λ a b, angle xy c a <= angle xy c b)
      (foldl (λ acc v, sort_insert (angle_cmp xy c) v acc) acc l)).
  { induction l as [|v l IH]; intros acc Hacc; cbn [foldl]; [done|].
    by apply IH, sort_insert_sorted. }
  apply Hgen. constructor.
Qed.

(** Two arrangements of the same elements, both in the order of a key
    that tells the elements apart, are the same list. *)
Lemma sorted_by_key_unique (key : A → R) (l1 l2 : list A) :
  NoDup (map key l1) → l1 ≡ₚ l2 →
  StronglySorted (λ a b, key a <= key b) l1 →
  StronglySorted (λ a b, key a <= key b) l2 →
  l1 = l2.
Proof.
  intros Hnd Hperm Hs1 Hs2.
  assert (Hanti : AntiSymm eq Rle) by (intros x y Hxy Hyx; lra).
  assert (Hkeys : map key l1 = map key l2).
  { apply (StronglySorted_unique Rle).
    - by apply (StronglySorted_fmap key (λ a b, key a <= key b) Rle).
    - by apply (StronglySorted_fmap key (λ a b, key a <= key b) Rle).
    - by apply fmap_Permutation. }
  apply list_eq. intros i.
  destruct (l2 !! i) as [b|] eqn:Hb.
  - assert (Hb1 : b ∈ l1).
    { rewrite Hperm. apply list_elem_of_lookup. by exists i. }
    apply list_elem_of_lookup in Hb1 as [j Hj].
    assert (Hki : map key l1 !! i = Some (key b)).
    { by rewrite Hkeys, list_lookup_fmap, Hb. }
    assert (Hkj : map key l1 !! j = Some (key b)).
    { by rewrite list_lookup_fmap, Hj. }
    by rewrite (NoDup_lookup _ i j _ Hnd Hki Hkj).
  - apply lookup_ge_None. apply lookup_ge_None in Hb.
    by rewrite (Permutation_length Hperm).
Qed.

Lemma reduce_sum_foldr (f : A → R) (l : list A) :
  reduce_sum f l = foldr Rplus 0 (map f l).
Proof.
  unfold reduce_sum.
  assert (Hgen : ∀ s, foldl (λ s p, num_add s (f p)) s l = s + foldr Rplus 0 (map f l)).
  { induction l as [|p l IH]; intros s; simpl; [lra|]. rewrite IH. lra. }
  rewrite Hgen. rsimpl. lra.
Qed.

Lemma reduce_sum_Permutation (f : A → R) (l1 l2 : list A) :
  l1 ≡ₚ l2 → reduce_sum f l1 = reduce_sum f l2.
Proof.
  intros Hperm. rewrite !reduce_sum_foldr.
  induction Hperm; simpl; lra.
Qed.

Lemma centroid_Permutation (l1 l2 : list A) :
  l1 ≡ₚ l2 → centroid xy l1 = centroid xy l2.
Proof.
  intros Hperm. unfold centroid.
  by rewrite (reduce_sum_Permutation _ _ _ Hperm),
             (reduce_sum_Permutation (λ p, py (xy p)) _ _ Hperm),
             (Permutation_length Hperm).
Qed.

(** The scan stops at the first point of least x + y. *)
Lemma scan_start_min (l : list A) :
  l ≠ [] →
  ∃ p, l !! scan_start xy l = Some p
       ∧ ∀ q, q ∈ l → px (xy p) + py (xy p) <= px (xy q) + py (xy q).
Proof.
  unfold scan_start.
  assert (Hgen :
    let r := foldl (scan_step xy) (0%nat, Infinity) (zip (seq 0 (length l)) l) in
    (l = [] ∧ r = (0%nat, Infinity))
    ∨ ∃ p, l !! r.1 = Some p ∧ r.2 = Seen (px (xy p) + py (xy p))
           ∧ ∀ q, q ∈ l → px (xy p) + py (xy p) <= px (xy q) + py (xy q)).
  { induction l as [|x l IH] using rev_ind; [by left|]. right.
    cbv zeta in *. rewrite length_app. cbn [length].
    rewrite Nat.add_1_r, seq_S, Nat.add_0_l.
    rewrite zip_with_app by (by rewrite length_seq).
    rewrite foldl_app. cbn [zip_with foldl].
    destruct IH as [[-> ->]|(p & Hp & Hbest & Hmin)].
    - exists x. simpl. split; [done|]. split; [done|].
      intros q Hq. apply list_elem_of_singleton in Hq as ->. lra.
    - set (r0 := foldl (scan_step xy) (0%nat, Infinity) (zip (seq 0 (length l)) l)) in *.
      assert (Hstep : scan_step xy r0 (length l, x)
                      = if Rlt_dec (px (xy x) + py (xy x)) (px (xy p) + py (xy p))
                        then (length l, Seen (px (xy x) + py (xy x))) else r0).
      { unfold scan_step. rewrite Hbest. cbn [below snd fst num_lt real_num].
        rsimpl. unfold Rltb. by destruct (Rlt_dec _ _). }
      rewrite Hstep.
      destruct (Rlt_dec _ _) as [Hlt|Hnlt]; cbn [fst snd].
      + exists x. split; [by rewrite lookup_app_r, Nat.sub_diag|]. split; [done|].
        intros q Hq. apply elem_of_app in Hq as [Hq|Hq].
        * specialize (Hmin q Hq). lra.
        * apply list_elem_of_singleton in Hq as ->. lra.
      + exists p. split; [by apply lookup_app_l_Some|]. split; [done|].
        intros q Hq. apply elem_of_app in Hq as [Hq|Hq].
        * by apply Hmin.
        * apply list_elem_of_singleton in Hq as ->. lra. }
  intros Hl. destruct Hgen as [[-> _]|(p & Hp & _ & Hmin)]; [done|].
  by exists p.
Qed.
End OrderQuadExact.

Section OrderQuadTheorems.
Import Exact.
Local Open Scope R_scope.

Lemma centroid_mean (pts : list (Point R)) :
  length pts = 4%nat →
  centroid (λ p, p) pts
  = (foldr Rplus 0 (map px pts) / 4, foldr Rplus 0 (map py pts) / 4).
Proof.
  intros Hlen. unfold centroid. rewrite !reduce_sum_foldr, Hlen. done.
Qed.

Lemma head_rotate {B : Type} (k : nat) (s : list B) :
  (k < length s)%nat → head (rotate k s) = s !! k.
Proof.
  intros Hk. unfold rotate. rewrite Nat.mod_small by done.
  rewrite head_app. rewrite head_lookup, lookup_drop, Nat.add_0_r.
  by destruct (lookup_lt_is_Some_2 s k Hk) as [x ->].
Qed.

(** The exact reading.  With real numbers for the doubles, on four
    points [orderQuad] returns the points in ascending order of
    atan2(y − cy, x − cx) about their centroid (cx, cy), the arithmetic
    mean of the four, rotated cyclically so that
    the list starts at a point of least x + y; the angular order is kept
    otherwise. *)
Lemma orderQuad_sorted_exact (pts : list (Point R)) :
  length pts = 4%nat →
  let cx := foldr Rplus 0 (map px pts) / 4 in
  let cy := foldr Rplus 0 (map py pts) / 4 in
  let ang p := Ratan2 (py p - cy) (px p - cx) in
  ∃ s k p,
    s ≡ₚ pts
    ∧ StronglySorted (λ a b, ang a <= ang b) s
    ∧ (k < 4)%nat
    ∧ orderQuad pts = map Some (rotate k s)
    ∧ head (rotate k s) = Some p
    ∧ ∀ q, q ∈ pts → px p + py p <= px q + py q.
Proof.
  intros Hlen cx cy ang.
  set (c := centroid (λ p, p) pts).
  assert (Hc : c = (cx, cy)) by (by apply centroid_mean).
  set (s := sort (angle_cmp (λ p, p) c) pts).
  assert (Hperm : s ≡ₚ pts) by apply sort_Permutation.
  assert (Hls : length s = 4%nat) by (by rewrite (Permutation_length Hperm)).
  destruct (scan_start_min (λ p, p) s) as (p & Hp & Hmin); [by destruct s|].
  exists s, (scan_start (λ p, p) s), p.
  split; [done|]. split.
  { pose proof (sort_sorted (λ p, p) c pts) as Hsorted.
    fold s in Hsorted. by rewrite Hc in Hsorted. }
  split; [rewrite <- Hls; apply scan_start_lt; by destruct s|].
  split; [by apply orderQuadOn_rotate|].
  split; [rewrite head_rotate; [done|by eapply lookup_lt_Some]|].
  intros q Hq. apply Hmin. by rewrite Hperm.
Qed.

(** The exact reading.  With real numbers for the doubles, for four
    points whose angles about their centroid are pairwise distinct,
    [orderQuad] returns the same list for every permutation of the points (the uniqueness of the point of least
    x + y is not needed for this), and so [applyFourPointFit] makes the same
    calls with the same pose whatever the order of the points in
    [fitPoints]. *)
Lemma orderQuad_invariant_exact (pts pts' : list (Point R)) :
  length pts = 4%nat → pts' ≡ₚ pts →
  NoDup (map (angle (λ p, p) (centroid (λ p, p) pts)) pts) →
  orderQuad pts' = orderQuad pts
  ∧ ∀ (env : Env R) (S : gmap string (value R)),
      applyFourPointFit env (<["fitPoints" := VPoints pts']> S)
      = applyFourPointFit env (<["fitPoints" := VPoints pts]> S).
Proof.
  intros Hlen Hperm Hnd.
  assert (Hlen' : length pts' = 4%nat) by (by rewrite (Permutation_length Hperm)).
  assert (Hquad : orderQuad pts' = orderQuad pts).
  { unfold orderQuad. rewrite !orderQuadOn_rotate by done.
    rewrite (centroid_Permutation (λ p, p) pts' pts Hperm).
    set (c := centroid (λ p, p) pts) in *.
    assert (Hsort : sort (angle_cmp (λ p, p) c) pts' = sort (angle_cmp (λ p, p) c) pts).
    { apply (sorted_by_key_unique (angle (λ p, p) c)).
      - by rewrite (sort_Permutation _ pts'), Hperm.
      - by rewrite !sort_Permutation.
      - apply sort_sorted.
      - apply sort_sorted. }
    by rewrite Hsort. }
  split; [done|]. intros env S.
  unfold applyFourPointFit, points_field, num_field.
  rewrite !lookup_insert_eq, !tbind_must, Hlen, Hlen', Hquad.
  by rewrite !lookup_insert_ne.
Qed.
End OrderQuadTheorems.

(** ** The order of [orderQuad], in every reading of the numbers *)

Section OrderQuadOrder.
Context {num : Type} `{!JsNum num} {A : Type} (xy : A → Point num).

Lemma sort_insert_elem_of (cmp : A → A → num) (v x : A) (l : list A) :
  x ∈ sort_insert cmp v l ↔ x = v ∨ x ∈ l.
Proof. rewrite (sort_insert_Permutation cmp v l). apply elem_of_cons. Qed.

Lemma sort_insert_ordered (c : num * num) (dom : list A) (v : A) (l : list A) :
  consistent (before xy c) dom → v ∈ dom → (∀ x, x ∈ l → x ∈ dom) →
  StronglySorted (λ a b, ¬ before xy c b a) l →
  StronglySorted (λ a b, ¬ before xy c b a) (sort_insert (angle_cmp xy c) v l).
Proof.
  intros (Hasym & Htrans & _) Hv Hl Hs.
  induction Hs as [|e l Hs IH He]; cbn [sort_insert].
  - by repeat constructor.
  - assert (Hel : e ∈ dom) by (apply Hl; left).
    assert (Hl' : ∀ x, x ∈ l → x ∈ dom) by (intros x Hx; apply Hl; by right).
    destruct (num_lt (angle_cmp xy c v e) (of_Z 0)) eqn:Hlt.
    + constructor; [by constructor|].
      constructor; [by apply Hasym|].
      apply Forall_forall. intros x Hx Hxv.
      rewrite Forall_forall in He. apply (He x Hx).
      by apply (Htrans x v e); auto.
    + constructor; [by apply IH|].
      apply Forall_forall. intros x Hx.
      apply sort_insert_elem_of in Hx as [->|Hx].
      * unfold before. by rewrite Hlt.
      * rewrite Forall_forall in He. by apply He.
Qed.

Lemma sort_ordered (c : num * num) (l : list A) :
  consistent (before xy c) l →
  StronglySorted (λ a b, ¬ before xy c b a) (sort (angle_cmp xy c) l).
Proof.
  intros Hc. unfold sort.
  assert (Hgen : ∀ k acc,
    (∀ x, x ∈ k → x ∈ l) → (∀ x, x ∈ acc → x ∈ l) →
    StronglySorted (λ a b, ¬ before xy c b a) acc →
    StronglySorted (λ a b, ¬ before xy c b a)
      (foldl (λ acc v, sort_insert (angle_cmp xy c) v acc) acc k)).
  { induction k as [|v k IH]; intros acc Hk Hacc Hs; cbn [foldl]; [done|].
    apply IH.
    - intros x Hx. apply Hk. by right.
    - intros x Hx. apply sort_insert_elem_of in Hx as [->|Hx]; [apply Hk; left|auto].
    - apply (sort_insert_ordered c l); auto. apply Hk. left. }
  apply Hgen; [done|by intros x Hx%elem_of_nil|constructor].
Qed.

End OrderQuadOrder.

Section ScanOrder.
Context {num : Type} `{!JsNum num} `{!JsOrderLaws num} {A : Type} (xy : A → Point num).

(** The scan stops at a point below which no point has its [x + y]. *)
Lemma scan_start_least (l : list A) :
  l ≠ [] →
  ∃ p, l !! scan_start xy l = Some p
       ∧ ∀ q, q ∈ l →
           num_lt (num_add (px (xy q)) (py (xy q))) (num_add (px (xy p)) (py (xy p)))
           = false.
Proof.
  set (v := λ q, num_add (px (xy q)) (py (xy q))).
  unfold scan_start.
  assert (Hgen :
    let r := foldl (scan_step xy) (0, Infinity) (zip (seq 0 (length l)) l) in
    (r = (0, Infinity) ∧ ∀ q, q ∈ l → lt_infinity (v q) = false)
    ∨ ∃ p, l !! r.1 = Some p ∧ r.2 = Seen (v p)
           ∧ ∀ q, q ∈ l → num_lt (v q) (v p) = false).
  { induction l as [|x l IH] using rev_ind.
    { left. split; [done|]. by intros q Hq%elem_of_nil. }
    cbv zeta in *. rewrite length_app. cbn [length].
    rewrite Nat.add_1_r, seq_S, Nat.add_0_l.
    rewrite zip_with_app by (by rewrite length_seq).
    rewrite foldl_app. cbn [zip_with foldl].
    destruct IH as [[-> Hinf]|(p & Hp & Hbest & Hmin)].
    - unfold scan_step. cbn [below snd fst]. fold (v x).
      destruct (lt_infinity (v x)) eqn:Hx.
      + right. exists x. cbn [fst snd].
        split; [by rewrite lookup_app_r, Nat.sub_diag|]. split; [done|].
        intros q Hq. apply elem_of_app in Hq as [Hq|Hq].
        * destruct (num_lt (v q) (v x)) eqn:Hlt; [|done].
          pose proof (lt_below_infinity _ _ Hlt Hx) as Hqi.
          by rewrite (Hinf q Hq) in Hqi.
        * apply list_elem_of_singleton in Hq as ->. apply lt_irrefl.
      + left. split; [done|].
        intros q Hq. apply elem_of_app in Hq as [Hq|Hq]; [by apply Hinf|].
        by apply list_elem_of_singleton in Hq as ->.
    - set (r0 := foldl (scan_step xy) (0, Infinity) (zip (seq 0 (length l)) l)) in *.
      right. unfold scan_step. rewrite Hbest. cbn [below snd fst]. fold (v x).
      destruct (num_lt (v x) (v p)) eqn:Hlt; cbn [fst snd].
      + exists x. split; [by rewrite lookup_app_r, Nat.sub_diag|]. split; [done|].
        intros q Hq. apply elem_of_app in Hq as [Hq|Hq].
        * destruct (num_lt (v q) (v x)) eqn:Hqx; [|done].
          pose proof (lt_trans _ _ _ Hqx Hlt) as Hqp.
          by rewrite (Hmin q Hq) in Hqp.
        * apply list_elem_of_singleton in Hq as ->. apply lt_irrefl.
      + exists p. split; [by apply lookup_app_l_Some|]. split; [done|].
        intros q Hq. apply elem_of_app in Hq as [Hq|Hq]; [by apply Hmin|].
        by apply list_elem_of_singleton in Hq as ->. }
  intros Hl. destruct Hgen as [[Hr Hinf]|(p & Hp & _ & Hmin)].
  - rewrite Hr. cbn [fst].
    destruct l as [|p l]; [done|]. exists p. split; [done|].
    intros q Hq. apply lt_infinity_top; apply Hinf; [done|left].
  - by exists p.
Qed.
End ScanOrder.

(** ** The laws of the order hold in both readings *)

Section OrderLawsExact.
Import Exact.
Local Open Scope R_scope.

#[export] Instance real_order_laws : JsOrderLaws R.
Proof.
  split.
  - intros a. cbn [num_lt real_num]. unfold Rltb. destruct (Rlt_dec a a); [lra|done].
  - intros a b c. cbn [num_lt real_num]. unfold Rltb.
    destruct (Rlt_dec a b), (Rlt_dec b c), (Rlt_dec a c); try done. lra.
  - done.
  - done.
Qed.

(** Over the reals the comparator of [orderQuad] is the order of the
    angles, and is consistent on every array. *)
Lemma real_consistent (key : Point R → R) (l : list (Point R)) :
  consistent (λ a b, num_lt (num_sub (key a) (key b)) (of_Z 0) = true) l.
Proof.
  assert (Hlt : ∀ a b, num_lt (num_sub (key a) (key b)) (of_Z 0) = true ↔ key a < key b).
  { intros a b. cbn [num_lt num_sub of_Z real_num]. unfold Rltb.
    destruct (Rlt_dec (key a - key b) 0); split; intros; (done || lra). }
  repeat split.
  - intros a b _ _. rewrite !Hlt. lra.
  - intros a b c _ _ _. rewrite !Hlt. lra.
  - revert H2 H3 H4 H5. rewrite !Hlt. lra.
  - revert H2 H3 H4 H5. rewrite !Hlt. lra.
Qed.
End OrderLawsExact.

Section OrderLawsBinary64.
Import Binary64.
Context (Matan2 Mhypot : spec_float → spec_float → spec_float).

Lemma SFltb_irrefl (a : spec_float) : SFltb a a = false.
Proof.
  unfold SFltb, SFcompare. destruct a as [s|s| |s m e].
  - done.
  - by destruct s.
  - done.
  - change (Pos.compare_cont Eq m m) with (Pos.compare m m).
    rewrite Z.compare_refl, Pos.compare_refl. by destruct s.
Qed.

Lemma SFltb_trans (a b c : spec_float) :
  SFltb a b = true → SFltb b c = true → SFltb a c = true.
Proof.
  unfold SFltb, SFcompare.
  destruct a as [sa|sa| |sa ma ea], b as [sb|sb| |sb mb eb], c as [sc|sc| |sc mc ec];
    try destruct sa; try destruct sb; try destruct sc; try done;
    change (Pos.compare_cont Eq ?x ?y) with (Pos.compare x y);
    destruct (Z.compare_spec ea eb), (Z.compare_spec eb ec), (Z.compare_spec ea ec);
    try done; try lia;
    destruct (Pos.compare_spec ma mb), (Pos.compare_spec mb mc),
             (Pos.compare_spec ma mc); try done; try lia.
Qed.

#[export] Instance binary64_order_laws :
  @JsOrderLaws spec_float (binary64_num Matan2 Mhypot).
Proof.
  split; cbn [num_lt lt_infinity binary64_num].
  - apply SFltb_irrefl.
  - apply SFltb_trans.
  - intros a b. apply SFltb_trans.
  - intros a b. unfold SFltb, SFcompare.
    destruct a as [sa|sa| |sa ma ea], b as [sb|sb| |sb mb eb];
      try destruct sa; try destruct sb; done.
Qed.
End OrderLawsBinary64.

(** ** The order of the quad, as the program computes it *)

Section OrderQuadOrdering.
Context {num : Type} `{!JsNum num}.
Local Open Scope js_scope.


(** The centroid of four points, operation by operation. *)
Lemma centroid_four (pts : list (Point num)) :
  length pts = 4%nat →
  centroid (λ p, p) pts
  = (foldl (λ s p, s + px p) 0 pts / of_Z 4, foldl (λ s p, s + py p) 0 pts / of_Z 4).
Proof. intros Hlen. unfold centroid, reduce_sum. by rewrite Hlen. Qed.

(** C4.  On four points [orderQuad] returns the points in ascending
    order of the angle that the program computes for each,
    atan2(y − cy, x − cx), about the centroid (cx, cy) that it computes
    (the sum of the coordinates taken in the order of the input, divided
    by 4), rotated cyclically so that the list starts at a point below
    which no point has its x + y; the angular order is kept otherwise.
    The comparator has to be consistent on the points, as it is when no
    angle is NaN. *)
Theorem orderQuad_sorted_from_min `{!JsOrderLaws num} (pts : list (Point num)) :
  length pts = 4%nat →
  let cx := foldl (λ s p, s + px p) 0 pts / of_Z 4 in
  let cy := foldl (λ s p, s + py p) 0 pts / of_Z 4 in
  let key p := atan2 (py p - cy) (px p - cx) in
  let goes_before a b := (key a - key b <? 0) = true in
  consistent goes_before pts →
  ∃ s k p,
    s ≡ₚ pts
    ∧ StronglySorted (λ a b, ¬ goes_before b a) s
    ∧ (k < 4)%nat
    ∧ orderQuad pts = map Some (rotate k s)
    ∧ head (rotate k s) = Some p
    ∧ ∀ q, q ∈ pts → (px q + py q <? px p + py p) = false.
Proof.
  intros Hlen cx cy key goes_before Hcons.
  set (c := centroid (λ p, p) pts).
  assert (Hc : c = (cx, cy)) by (by apply centroid_four).
  assert (Hbefore : ∀ a b, before (λ p, p) c a b ↔ goes_before a b).
  { intros a b. unfold before, angle_cmp, angle. by rewrite Hc. }
  assert (Hcons' : consistent (before (λ p, p) c) pts).
  { destruct Hcons as (Hasym & Htrans & Heq). repeat split.
    - intros a b Ha Hb Hab Hba. apply Hbefore in Hab, Hba. by apply (Hasym a b).
    - intros a b d Ha Hb Hd Hab Hbd. apply Hbefore in Hab, Hbd.
      apply Hbefore. by apply (Htrans a b d).
    - intros Had. apply Hbefore in Had. revert Had.
      apply (Heq a b c0); auto; by rewrite <- Hbefore.
    - intros Hda. apply Hbefore in Hda. revert Hda.
      apply (Heq a b c0); auto; by rewrite <- Hbefore. }
  set (s := sort (angle_cmp (λ p, p) c) pts).
  assert (Hperm : s ≡ₚ pts) by apply sort_Permutation.
  assert (Hls : length s = 4%nat) by (by rewrite (Permutation_length Hperm)).
  destruct (scan_start_least (λ p, p) s) as (p & Hp & Hmin); [by destruct s|].
  exists s, (scan_start (λ p, p) s), p.
  split; [done|]. split.
  { pose proof (sort_ordered (λ p, p) c pts Hcons') as Hsorted. fold s in Hsorted.
    clearbody s. rewrite Hc in Hsorted. exact Hsorted. }
  split; [rewrite <- Hls; apply scan_start_lt; by destruct s|].
  split; [by apply orderQuadOn_rotate|].
  split; [rewrite head_rotate; [done|by eapply lookup_lt_Some]|].
  intros q Hq. apply Hmin. by rewrite Hperm.
Qed.

End OrderQuadOrdering.

(** ** Exact arithmetic: the corners that are paired *)

Section Corners.
Import Exact LeastSquares.
Local Open Scope R_scope.

Lemma y_up_inverse_correct (W H : R) :
  W ≠ 0 → H ≠ 0 →
  inverse_of 6 (mat_mul 6 (transpose 6 (design_rows (corners_y_up W H)))
                          (design_rows (corners_y_up W H)))
             (rectangle_inverse W H).
Proof.
  intros HW HH. split; [|split].
  - split; [done|]. by repeat constructor.
  - cbv [mat_mul transpose design_rows corners_y_up rectangle_inverse identity
         unit_vector flat_map app map seq column dot zip zip_with foldl fst snd
         lookup_total list_lookup_total px py Nat.eqb
         num_add num_mul num_div num_neg of_Z real_num].
    repeat (f_equal; try (field; done)).
  - cbv [mat_mul transpose design_rows corners_y_up rectangle_inverse identity
         unit_vector flat_map app map seq column dot zip zip_with foldl fst snd
         lookup_total list_lookup_total px py Nat.eqb
         num_add num_mul num_div num_neg of_Z real_num].
    repeat (f_equal; try (field; done)).
Qed.

Lemma solveAffine_y_up (W H : R) (q0 q1 q2 q3 : Point R) :
  W ≠ 0 → H ≠ 0 →
  solveAffine (corners_y_up W H) [q0; q1; q2; q3]
  = Some (MkAffine
      ((- px q0 + px q1 + px q2 - px q3) / (2 * W))
      (- ((- px q0 - px q1 + px q2 + px q3) / (2 * H)))
      ((px q0 + px q1 + px q2 + px q3) / 4)
      ((- py q0 + py q1 + py q2 - py q3) / (2 * W))
      (- ((- py q0 - py q1 + py q2 + py q3) / (2 * H)))
      ((py q0 + py q1 + py q2 + py q3) / 4)).
Proof.
  intros HW HH.
  rewrite (solveAffine_normal _ _ (rectangle_inverse W H)); try done.
  2:{ by apply y_up_inverse_correct. }
  destruct q0 as [X0 Y0], q1 as [X1 Y1], q2 as [X2 Y2], q3 as [X3 Y3].
  cbv [affine_of mat_vec transpose design_rows targets corners_y_up
       rectangle_inverse flat_map app map seq column dot zip zip_with foldl
       fst snd lookup_total list_lookup_total px py
       num_add num_mul num_div num_neg of_Z real_num].
  f_equal. f_equal; field; done.
Qed.

Lemma dispW_pos (env : Env R) (imgW : R) : 0 < dispW env imgW.
Proof.
  unfold dispW. rsimpl.
  pose proof (Rmax_l 640 (Rmin (maxW env) imgW)). lra.
Qed.

(** [screenToWorld] keeps the order of x and reverses the order of y: the
    points go from the screen, where y points down, to a world where y
    points up. *)
Lemma screenToWorld_flips_y (env : Env R) (imgW imgH : R) (p q : Point R) :
  0 < imgW → 0 < imgH →
  let s2w := screenToWorld (dispW env imgW) (dispH env imgW imgH) imgW imgH in
  (px p < px q → px (s2w p) < px (s2w q))
  ∧ (py p < py q → py (s2w q) < py (s2w p)).
Proof.
  intros HW HH s2w. unfold s2w, screenToWorld, dispH. cbn [px py]. rsimpl.
  pose proof (dispW_pos env imgW) as HdW.
  set (dW := dispW env imgW) in *.
  assert (HdH : 0 < imgH * (dW / imgW)).
  { apply Rmult_lt_0_compat; [done|]. by apply Rdiv_lt_0_compat. }
  assert (HpH : 0 < 120 * (imgH / imgW)).
  { apply Rmult_lt_0_compat; [lra|]. by apply Rdiv_lt_0_compat. }
  split; intros Hlt.
  - assert (px p / dW < px q / dW).
    { unfold Rdiv. apply Rmult_lt_compat_r; [by apply Rinv_0_lt_compat|done]. }
    lra.
  - assert (Hy : py p / (imgH * (dW / imgW)) < py q / (imgH * (dW / imgW))).
    { unfold Rdiv at 1 3. apply Rmult_lt_compat_r; [by apply Rinv_0_lt_compat|done]. }
    pose proof (Rmult_lt_compat_r _ _ _ HpH Hy). lra.
Qed.

(** Paired with its own corners in the order of the y-up world, the
    source rectangle is fitted by the mirror in y, not by the identity. *)
Lemma mirrored_pairing_reflects (W H : R) :
  W ≠ 0 → H ≠ 0 →
  solveAffine (sourceCorners W H) (corners_y_up W H)
  = Some (MkAffine 1 0 0 0 (-1) 0).
Proof.
  intros HW HH. unfold corners_y_up.
  rewrite solveAffine_rectangle by done.
  cbn [px py]. f_equal. f_equal; field; done.
Qed.

(** The claim C3 as it is stated fails: in a world where y points up the
    first source corner is the bottom-left one, not the top-left one. *)
Lemma source_corners_not_y_up :
  sourceCorners 2 2 !! 0%nat = Some (Pt (-1) (-1))
  ∧ corners_y_up 2 2 !! 0%nat = Some (Pt (-1) 1)
  ∧ sourceCorners (num := R) 2 2 ≠ corners_y_up 2 2.
Proof.
  split; [|split].
  - unfold sourceCorners. rsimpl. cbn [lookup list_lookup]. do 2 f_equal; lra.
  - unfold corners_y_up. cbn [lookup list_lookup]. do 2 f_equal; lra.
  - unfold sourceCorners, corners_y_up. rsimpl. intros Heq.
    injection Heq as _ Hy _. lra.
Qed.

(** C3, as the code has it.  The corners handed to [solveAffine] are, in
    order, (−W/2, −H/2), (W/2, −H/2), (W/2, H/2), (−W/2, H/2): top-left,
    top-right, bottom-right, bottom-left when y points down, as for the
    picked screen points, which is bottom-left, bottom-right, top-right,
    top-left in the world where y points up, into which [screenToWorld]
    takes the ordered picked points.  The pairing by index is therefore
    mirrored in y; the mirror changes the signs of b and e only, and the pose
    that [decomposeAffineToTRS] returns is the one of the corners taken in
    the order of the y-up world. *)
Theorem source_corners_mirrored (W H imgW imgH : R) (env : Env R)
    (p q q0 q1 q2 q3 : Point R) :
  0 < W → 0 < H → 0 < imgW → 0 < imgH →
  let s2w := screenToWorld (dispW env imgW) (dispH env imgW imgH) imgW imgH in
  sourceCorners W H = corners_y_down W H
  ∧ sourceCorners W H = rev (corners_y_up W H)
  ∧ (px p < px q → px (s2w p) < px (s2w q))
  ∧ (py p < py q → py (s2w q) < py (s2w p))
  ∧ decomposeAffineToTRS <$> solveAffine (sourceCorners W H) [q0; q1; q2; q3]
    = decomposeAffineToTRS <$> solveAffine (corners_y_up W H) [q0; q1; q2; q3].
Proof.
  intros HW HH HiW HiH s2w.
  split; [done|]. split; [done|].
  destruct (screenToWorld_flips_y env imgW imgH p q HiW HiH) as [Hx Hy].
  split; [done|]. split; [done|].
  rewrite solveAffine_rectangle, solveAffine_y_up by lra.
  cbn [fmap option_fmap option_map]. f_equal.
  unfold decomposeAffineToTRS. cbn [af_a af_b af_c af_d af_e af_f].
  f_equal. f_equal. cbn [hypot real_num]. f_equal. lra.
Qed.

Lemma source_corners_mirrored_witness :
  let env := MkEnv None (1, 1) in
  let s2w := screenToWorld (dispW env 1600) (dispH env 1600 900) 1600 900 in
  sourceCorners 4 2 = corners_y_down 4 2
  ∧ sourceCorners 4 2 = rev (corners_y_up 4 2)
  ∧ (px (Pt 0 0) < px (Pt 10 20) → px (s2w (Pt 0 0)) < px (s2w (Pt 10 20)))
  ∧ (py (Pt 0 0) < py (Pt 10 20) → py (s2w (Pt 10 20)) < py (s2w (Pt 0 0)))
  ∧ decomposeAffineToTRS <$> solveAffine (sourceCorners 4 2)
                               [Pt 0 0; Pt 1 0; Pt 1 1; Pt 0 1]
    = decomposeAffineToTRS <$> solveAffine (corners_y_up 4 2)
                                 [Pt 0 0; Pt 1 0; Pt 1 1; Pt 0 1].
Proof.
  apply (source_corners_mirrored 4 2 1600 900 (MkEnv None (1, 1))
           (Pt 0 0) (Pt 10 20) (Pt 0 0) (Pt 1 0) (Pt 1 1) (Pt 0 1)); lra.
Defined.
End Corners.

(** ** The theorems at concrete inputs *)

Section MoreWitnesses.
Import Exact LeastSquares Examples.
Local Open Scope R_scope.

Lemma fit_single_atomic_update_witness :
  ∃ quad aff,
    orderQuad fourClicks = map Some quad
    ∧ solveAffine
        (sourceCorners
           (or_else (textWorldSize noWindow).1 (of_Z 1)
            + 32 * of_dec 5 (-1) * of_Z 2)%js
           (or_else (textWorldSize noWindow).2 (of_Z 1)
            + 32 * of_dec 5 (-1) * of_Z 2)%js)
        (map (screenToWorld (dispW noWindow 1600) (dispH noWindow 1600 900)
                1600 900) quad)
      = Some aff
    ∧ applyFourPointFit noWindow pickedState
      = ([CallOrderQuad; CallSolveAffine; CallDecompose;
          CallSet (fitPatch (decomposeAffineToTRS aff))], Some tt)
    ∧ dom (fitPatch (decomposeAffineToTRS aff)) = fitFields
    ∧ ∀ prev, let S' := run_calls (applyFourPointFit noWindow pickedState).1 prev in
        S' !! "signTX" = Some (VNum (af_c aff))
        ∧ S' !! "signTY" = Some (VNum (af_f aff))
        ∧ S' !! "signRZ" = Some (VNum (atan2 (af_d aff) (af_a aff)))
        ∧ S' !! "signScale"
          = Some (VNum (num_max (of_dec 5 (-2))
               (or_else ((hypot (af_a aff) (af_d aff)
                          + hypot (af_b aff) (af_e aff)) / of_Z 2)%js (of_Z 1))))
        ∧ S' !! "fitMode" = Some (VBool false)
        ∧ S' !! "fitPoints" = Some (VPoints [])
        ∧ ∀ k, k ∉ fitFields → S' !! k = prev !! k.
Proof.
  apply (fit_single_atomic_update noWindow pickedState fourClicks 32 1600 900);
    reflexivity.
Defined.

Lemma orderQuad_sorted_from_min_witness :
  let cx := (foldl (λ s p, s + px p) 0 fourClicks / of_Z 4)%js in
  let cy := (foldl (λ s p, s + py p) 0 fourClicks / of_Z 4)%js in
  let key p := atan2 (py p - cy)%js (px p - cx)%js in
  let goes_before a b := (key a - key b <? 0)%js = true in
  ∃ s k p,
    s ≡ₚ fourClicks
    ∧ StronglySorted (λ a b, ¬ goes_before b a) s
    ∧ (k < 4)%nat
    ∧ orderQuad fourClicks = map Some (rotate k s)
    ∧ head (rotate k s) = Some p
    ∧ ∀ q, q ∈ fourClicks → (px q + py q <? px p + py p)%js = false.
Proof.
  apply (orderQuad_sorted_from_min fourClicks).
  - reflexivity.
  - apply real_consistent.
Defined.

Lemma orderQuad_keeps_input_witness :
  ∃ out σ',
    orderQuad_store 0 clicksStore = Some (map Some out, σ')
    ∧ arrays σ' !! 0%nat = Some [10; 11; 12; 13]%nat
    ∧ (∀ r, r ∈ dom (arrays clicksStore) → arrays σ' !! r = arrays clicksStore !! r)
    ∧ objects σ' = objects clicksStore
    ∧ out ≡ₚ [10; 11; 12; 13]%nat
    ∧ orderQuad fourClicks = map (λ r, objects clicksStore !! r) out.
Proof.
  apply (orderQuad_keeps_input 0 clicksStore [10; 11; 12; 13]%nat fourClicks);
    reflexivity.
Defined.



End MoreWitnesses.

(** ** Where binary64 departs from exact arithmetic *)

Section RoundingShows.
Import Exact LeastSquares Binary64 Engines Rounding.
Local Open Scope R_scope.

Lemma Ratan2_zero_pos (x : R) : 0 < x → Ratan2 0 x = 0.
Proof.
  intros Hx. unfold Ratan2. destruct (Rlt_dec 0 x); [|lra].
  replace (0 / x) with 0 by (unfold Rdiv; lra). apply atan_0.
Qed.

Lemma Ratan2_zero_neg (x : R) : x < 0 → Ratan2 0 x = PI.
Proof.
  intros Hx. unfold Ratan2. destruct (Rlt_dec 0 x); [lra|].
  destruct (Rlt_dec x 0); [|lra]. destruct (Rle_dec 0 0); [|lra].
  replace (0 / x) with 0 by (unfold Rdiv; lra). rewrite atan_0. lra.
Qed.

Lemma b64_to_R_finite (s : bool) (m : positive) (e : Z) (d : Z) :
  (e < 0)%Z → (2 ^ (- e))%Z = d →
  b64_to_R (S754_finite s m e)
  = if s then - (IZR (Z.pos m) / IZR d) else IZR (Z.pos m) / IZR d.
Proof.
  intros He <-. unfold b64_to_R.
  destruct (Z.leb_spec 0 e) as [?|_]; [lia|done].
Qed.

Lemma b64_to_R_one : b64_to_R one = 1.
Proof.
  change one with (S754_finite false 4503599627370496 (-52)).
  rewrite (b64_to_R_finite _ _ _ 4503599627370496) by (lia || reflexivity). lra.
Qed.

Lemma b64_to_R_after_one : b64_to_R after_one = 1 + 1 / 4503599627370496.
Proof.
  unfold after_one, b64.
  rewrite (b64_to_R_finite _ _ _ 4503599627370496) by (lia || reflexivity). lra.
Qed.

(** The run of [orderQuad] on [nearQuad], on every engine: the four
    angles are +0, the sort moves nothing, and the first point has the
    least x + y already. *)
Lemma b64_orderQuad_nearQuad :
  every_engine (λ B64, @orderQuad _ B64 nearQuad = map Some nearQuad).
Proof.
  intros Matan2 Mhypot Hatan Hhypot.
  set (B64 := binary64_num Matan2 Mhypot).
  unfold orderQuad, orderQuadOn.
  assert (Hc : @centroid _ B64 _ (λ p, p) nearQuad = (one, one))
    by (vm_compute; reflexivity).
  rewrite Hc.
  set (A := Pt one one). set (D := Pt after_one one).
  assert (HkA : @angle _ B64 _ (λ p, p) (one, one) A = S754_zero false).
  { vm_compute. apply Hatan. by left. }
  assert (HkD : @angle _ B64 _ (λ p, p) (one, one) D = S754_zero false).
  { vm_compute. apply Hatan. by right. }
  assert (Hcmp : ∀ a b, (a = A ∨ a = D) → (b = A ∨ b = D) →
            @num_lt _ B64 (@angle_cmp _ B64 _ (λ p, p) (one, one) a b) (@of_Z _ B64 0)
            = false).
  { intros a b [-> | ->] [-> | ->]; unfold angle_cmp; rewrite ?HkA, ?HkD; reflexivity. }
  assert (Hs : @sort _ B64 _ (@angle_cmp _ B64 _ (λ p, p) (one, one)) nearQuad = nearQuad).
  { unfold sort, nearQuad. fold A D.
    repeat (progress (cbn [foldl sort_insert]; rewrite ?Hcmp by auto)). reflexivity. }
  rewrite Hs. clear. vm_compute. reflexivity.
Qed.

(** No arrangement of the points of [nearQuad] in the order of their
    exact angles about their arithmetic mean, however rotated, is
    [nearQuad] itself: about the mean the two points at 1 + 2⁻⁵² have
    the angle 0 and the two at 1 the angle PI, and [nearQuad]
    alternates. *)
Lemma nearQuad_not_in_exact_order :
  let pts := map point_to_R nearQuad in
  let cx := foldr Rplus 0 (map px pts) / 4 in
  let cy := foldr Rplus 0 (map py pts) / 4 in
  let ang p := Ratan2 (py p - cy) (px p - cx) in
  ∀ s k, s ≡ₚ pts → StronglySorted (λ a b, ang a <= ang b) s → rotate k s ≠ pts.
Proof.
  intros pts cx cy ang.
  set (u := 1 / 4503599627370496).
  assert (Hu : 0 < u) by (unfold u; lra).
  set (a := Pt 1 1). set (d := Pt (1 + u) 1).
  assert (Hpts : pts = [a; d; a; d]).
  { unfold pts, nearQuad. cbn [map]. unfold point_to_R. cbn [px py].
    by rewrite b64_to_R_one, b64_to_R_after_one. }
  assert (Hcx : cx = 1 + u / 2).
  { unfold cx. rewrite Hpts. cbn [map foldr px a d]. lra. }
  assert (Hcy : cy = 1).
  { unfold cy. rewrite Hpts. cbn [map foldr py a d]. lra. }
  assert (Ha : ang a = PI).
  { unfold ang. rewrite Hcx, Hcy. cbn [px py a].
    replace (1 - 1) with 0 by lra. apply Ratan2_zero_neg. lra. }
  assert (Hd : ang d = 0).
  { unfold ang. rewrite Hcx, Hcy. cbn [px py d].
    replace (1 - 1) with 0 by lra. apply Ratan2_zero_pos. lra. }
  clearbody ang pts. subst pts. clear Hcx Hcy.
  intros s k Hperm Hsorted Hrot.
  pose proof PI_RGT_0 as Hpi.
  assert (Hanti : AntiSymm eq Rle) by (intros x y Hxy Hyx; lra).
  assert (Hkeys : map ang s = [0; 0; PI; PI]).
  { apply (StronglySorted_unique Rle).
    - by apply (StronglySorted_fmap ang (λ a b, ang a <= ang b) Rle).
    - repeat constructor; lra.
    - rewrite (Permutation_map ang Hperm). cbn [map]. rewrite Ha, Hd.
      apply (Permutation_trans (l' := [0; PI; PI; 0])).
      + apply Permutation_swap.
      + apply Permutation_skip. change [PI; PI; 0] with ([PI; PI] ++ [0]).
        apply Permutation_sym, (Permutation_cons_append [PI; PI] 0)
        || (symmetry; apply (Permutation_cons_append [PI; PI] 0)). }
  assert (Hrk : rotate k (map ang s) = [PI; 0; PI; 0]).
  { apply (f_equal (map ang)) in Hrot. cbn [map] in Hrot. rewrite Ha, Hd in Hrot.
    rewrite <- Hrot. unfold rotate.
    by rewrite List.map_app, List.skipn_map, List.firstn_map, List.length_map. }
  rewrite Hkeys in Hrk. unfold rotate in Hrk. cbn [length] in Hrk.
  pose proof (Nat.mod_upper_bound k 4 ltac:(lia)) as Hk.
  destruct (k mod 4)%nat as [|[|[|[|?]]]]; try lia; cbn in Hrk; injection Hrk; intros; lra.
Qed.

(** X7.  The centroid that the program computes depends on the order of the
    points: 1 + 2⁻⁵³ + 2⁻⁵³ is 1, each addition rounding to even, and
    2⁻⁵³ + 2⁻⁵³ + 1 is 1 + 2⁻⁵². *)
Lemma b64_centroid_order_dependent :
  sumQuad' ≡ₚ sumQuad
  ∧ every_engine (λ B64,
      @centroid _ B64 _ (λ p, p) sumQuad = (b64_of_dec 15 (-1), b64 4503599627370496 (-54))
      ∧ @centroid _ B64 _ (λ p, p) sumQuad'
        = (b64_of_dec 15 (-1), b64 4503599627370497 (-54))).
Proof.
  split.
  - unfold sumQuad, sumQuad'.
    etransitivity; [apply perm_skip, perm_swap|apply perm_swap].
  - intros Matan2 Mhypot _ _. split; vm_compute; reflexivity.
Qed.

End RoundingShows.

Section RoundingRefutes.
Import Exact LeastSquares Binary64 Engines Rounding.
Local Open Scope R_scope.



(** C4, refuted as it stands: on the four points of [nearQuad] the
    program, on every engine, returns them as they are, which is no
    rotation of them in the order of their angles about their arithmetic
    mean. *)
Lemma b64_orderQuad_not_exact_order :
  every_engine (λ B64, @orderQuad _ B64 nearQuad = map Some nearQuad)
  ∧ (let pts := map point_to_R nearQuad in
     let cx := foldr Rplus 0 (map px pts) / 4 in
     let cy := foldr Rplus 0 (map py pts) / 4 in
     let ang p := Ratan2 (py p - cy) (px p - cx) in
     ∀ s k, s ≡ₚ pts → StronglySorted (λ a b, ang a <= ang b) s →
            rotate k s ≠ pts).
Proof. split; [apply b64_orderQuad_nearQuad|apply nearQuad_not_in_exact_order]. Qed.

End RoundingRefutes.

Section RoundingRefutesFit.
Import Exact LeastSquares Binary64 Engines Rounding.
Local Open Scope R_scope.


End RoundingRefutesFit.

(** ** More of the solver *)

Section MoreMatrices.
Context {num : Type} `{!JsNum num}.
Local Abbreviation matrix := (list (list num)).

Lemma column_lookup_total (j i : nat) (m : matrix) :
  i < length m → column j m !!! i = (m !!! i) !!! j.
Proof.
  intros Hi. unfold column.
  destruct (lookup_lt_is_Some_2 m i Hi) as [row Hrow].
  rewrite (list_lookup_total_correct m i row Hrow).
  apply list_lookup_total_correct. by rewrite list_lookup_fmap, Hrow.
Qed.

Lemma transpose_transpose r c (m : matrix) :
  shape r c m → transpose r (transpose c m) = m.
Proof.
  intros [Hr Hc]. apply list_eq. intros i. unfold transpose at 1.
  rewrite list_lookup_fmap.
  destruct (decide (i < r)) as [Hi|Hi].
  - rewrite lookup_seq_lt by done. simpl.
    destruct (lookup_lt_is_Some_2 m i) as [row Hrow]; [lia|].
    rewrite Hrow. f_equal.
    assert (Hl : length row = c) by (by apply (Forall_lookup_1 _ _ _ _ Hc Hrow)).
    apply list_eq. intros j. unfold column at 1, transpose.
    rewrite list_lookup_fmap, list_lookup_fmap.
    destruct (decide (j < c)) as [Hj|Hj].
    + rewrite lookup_seq_lt by done. simpl.
      rewrite column_lookup_total by lia.
      rewrite (list_lookup_total_correct m i row Hrow).
      symmetry. apply list_lookup_lookup_total_lt. lia.
    + rewrite lookup_seq_ge by lia. simpl.
      symmetry. apply lookup_ge_None. lia.
  - rewrite lookup_seq_ge by lia. simpl.
    symmetry. apply lookup_ge_None. lia.
Qed.

Lemma design_take (from to : list (Point num)) :
  design from to = design (take 4 from) (take 4 to).
Proof.
  unfold design. cbn [for_range].
  by rewrite !lookup_take_lt by lia.
Qed.

(** X1.  [AT] undoes itself: on a matrix with at least one row and one
    column, all rows of one length, transposing twice gives the matrix
    back. *)
Theorem AT_involutive (r c : nat) (m : matrix) :
  shape (S r) (S c) m → AT m ≫= AT = Some m.
Proof.
  intros Hm. rewrite (AT_spec r (S c) m Hm). cbn [mbind option_bind].
  assert (Ht : shape (S c) (S r) (transpose (S c) m)).
  { apply transpose_shape. by destruct Hm. }
  rewrite (AT_spec c (S r) _ Ht). f_equal.
  by apply transpose_transpose.
Qed.

(** X2.  [solveAffine] reads the first four correspondences and nothing
    after them. *)
Theorem solveAffine_first_four (from to : list (Point num)) :
  solveAffine from to = solveAffine (take 4 from) (take 4 to).
Proof. unfold solveAffine. by rewrite design_take. Qed.

(** X3.  With fewer than four points on either side [solveAffine] throws:
    it reads [from[i]] and [to[i]] for every [i] below 4, and takes the
    fields of what it finds. *)
Theorem solveAffine_needs_four (from to : list (Point num)) :
  length from < 4 ∨ length to < 4 → solveAffine from to = None.
Proof.
  intros Hlen. unfold solveAffine.
  assert (Hd : design from to = None); [|by rewrite Hd].
  unfold design.
  destruct from as [|p0 [|p1 [|p2 [|p3 from]]]];
    destruct to as [|q0 [|q1 [|q2 [|q3 to]]]];
    try reflexivity; simpl in Hlen; lia.
Qed.
End MoreMatrices.

(** ** More of [orderQuad] and [addPoint] *)

Section MoreOrderQuad.
Context {num : Type} `{!JsNum num}.

(** X4.  [orderQuad] always returns four entries, and all four are points
    exactly when it is given at least four points: with fewer, an entry
    is [undefined]. *)
Theorem orderQuad_defined_iff (pts : list (Point num)) :
  length (orderQuad pts) = 4 ∧ (Forall is_Some (orderQuad pts) ↔ 4 ≤ length pts).
Proof.
  split; [done|].
  unfold orderQuad, orderQuadOn.
  set (s := sort (angle_cmp (λ p, p) (centroid (λ p, p) pts)) pts).
  assert (Hs : length s = length pts).
  { unfold s. by rewrite (Permutation_length (sort_Permutation _ pts)). }
  rewrite <- Hs. clear Hs.
  assert (Hst : s ≠ [] → scan_start (λ p, p) s < length s) by apply scan_start_lt.
  set (k := scan_start (λ p, p) s) in *.
  rewrite !Forall_cons, Forall_nil, !lookup_lt_is_Some.
  split.
  - intros (H0 & H1 & H2 & H3 & _).
    destruct (decide (4 ≤ length s)) as [|Hn]; [done|exfalso].
    destruct k as [|[|[|[|k]]]]; simpl in *; lia.
  - intros Hn. assert (Hne : s ≠ []) by (intros ->; simpl in Hn; lia).
    specialize (Hst Hne).
    pose proof (Nat.mod_upper_bound (k + 1) 4).
    pose proof (Nat.mod_upper_bound (k + 2) 4).
    pose proof (Nat.mod_upper_bound (k + 3) 4).
    repeat split; lia.
Qed.

(** X5.  [addPoint] keeps the clicks in their order: below four points the
    click is appended, from four points on it is dropped. *)
Theorem addPoint_appends_until_four (points : list (Point num))
    (clientX clientY rleft rtop : num) :
  addPoint (Some points) clientX clientY rleft rtop
  = if decide (length points < 4)
    then points ++ [Pt (clientX - rleft)%js (clientY - rtop)%js]
    else take 4 points.
Proof.
  unfold addPoint. cbn [default]. unfold Datatypes.id.
  destruct (decide (length points < 4)) as [Hlt|Hge].
  - apply take_ge. rewrite length_app. cbn [length]. lia.
  - rewrite take_app_le by lia. done.
Qed.
(** X6.  The overlay joins each picked point to the next one and does not
    close the polygon: with [n] points, two or more, it draws the [n - 1]
    segments from point [i] to point [i + 1] and renders nothing for the
    last point; with fewer than two points it draws nothing. *)
Theorem overlayLines_open_polyline (points : list (Point num)) :
  overlayLines points
  = if decide (2 ≤ length points)
    then map Some (zip points (drop 1 points)) ++ [None]
    else [].
Proof.
  unfold overlayLines.
  destruct (decide (2 ≤ length points)) as [Hn|Hn].
  2:{ destruct (Nat.leb_spec 2 (length points)); [lia|done]. }
  destruct (Nat.leb_spec 2 (length points)) as [_|?]; [|lia].
  apply list_eq. intros i. rewrite list_lookup_imap.
  destruct (decide (i < length points - 1)) as [Hi|Hi].
  - destruct (lookup_lt_is_Some_2 points i) as [p Hp]; [lia|].
    destruct (lookup_lt_is_Some_2 points (S i)) as [q Hq]; [lia|].
    rewrite Hp. cbn [fmap option_fmap option_map].
    rewrite Nat.mod_small by lia. rewrite Nat.add_1_r, Hq.
    destruct (Nat.ltb_spec i (length points - 1)); [|lia].
    rewrite lookup_app_l.
    2:{ rewrite length_map, length_zip, length_drop. lia. }
    rewrite list_lookup_fmap.
    assert (Hz : zip points (drop 1 points) !! i = Some (p, q)).
    { apply lookup_zip_with_Some. exists p, q. split; [done|]. split; [done|].
      by rewrite lookup_drop. }
    by rewrite Hz.
  - destruct (decide (i = length points - 1)) as [->|Hne].
    + destruct (lookup_lt_is_Some_2 points (length points - 1)) as [p Hp]; [lia|].
      rewrite Hp. cbn [fmap option_fmap option_map].
      replace (length points - 1 + 1) with (length points) by lia.
      rewrite Nat.Div0.mod_same.
      destruct (lookup_lt_is_Some_2 points 0) as [q Hq]; [lia|]. rewrite Hq.
      destruct (Nat.ltb_spec (length points - 1) (length points - 1)); [lia|].
      rewrite lookup_app_r.
      2:{ rewrite length_map, length_zip, length_drop. lia. }
      rewrite length_map, length_zip, length_drop.
      replace (length points - 1 - length points `min` (length points - 1)) with 0
        by lia.
      done.
    + rewrite (lookup_ge_None_2 points i) by lia.
      symmetry. apply lookup_ge_None_2.
      rewrite length_app, length_map, length_zip, length_drop. simpl. lia.
Qed.
End MoreOrderQuad.

Section MoreWitnessesExact.
Import Exact.
Local Open Scope R_scope.

Lemma AT_involutive_witness :
  AT [[1; 2; 3]; [4; 5; 6]] ≫= AT = Some [[1; 2; 3]; [4; 5; 6]].
Proof. apply (AT_involutive 1 2). split; [done|]. by repeat constructor. Defined.

Lemma solveAffine_needs_four_witness :
  solveAffine [Pt 0 0; Pt 1 0; Pt 1 1] [Pt 0 0; Pt 1 0; Pt 1 1; Pt 0 1] = None.
Proof. apply solveAffine_needs_four. left. simpl. lia. Defined.
End MoreWitnessesExact.

(** ** The embedding run in binary64 *)

Section Binary64Runs.
Import Binary64 Examples.
Context (Matan2 Mhypot : spec_float → spec_float → spec_float).
Local Abbreviation B64 := (binary64_num Matan2 Mhypot).

(** The corners of the 4 by 2 rectangle fitted to themselves: the identity,
    with no rounding. *)
Lemma b64_identity_fit :
  @solveAffine _ B64 (@sourceCorners _ B64 (b64_of_Z 4) (b64_of_Z 2))
                     (@sourceCorners _ B64 (b64_of_Z 4) (b64_of_Z 2))
  = Some (MkAffine (b64_of_Z 1) (b64_of_Z 0) (b64_of_Z 0)
                   (b64_of_Z 0) (b64_of_Z 1) (b64_of_Z 0)).
Proof. vm_compute. reflexivity. Qed.

(** The corners of the 7 by 7 rectangle fitted to themselves: binary64
    rounds 1/49, and [a] and [e] come out as 1 − 2⁻⁵³ =
    0.9999999999999999. *)
Lemma b64_identity_fit_rounds :
  @solveAffine _ B64 (@sourceCorners _ B64 (b64_of_Z 7) (b64_of_Z 7))
                     (@sourceCorners _ B64 (b64_of_Z 7) (b64_of_Z 7))
  = Some (MkAffine (S754_finite false 9007199254740991 (-53)) (b64_of_Z 0)
                   (b64_of_Z 0) (b64_of_Z 0)
                   (S754_finite false 9007199254740991 (-53)) (b64_of_Z 0)).
Proof. vm_compute. reflexivity. Qed.

(** X9.  Four picks at the same place: the fit collapses onto the point. *)
Lemma b64_coincident_targets :
  @solveAffine _ B64 (@sourceCorners _ B64 (b64_of_Z 4) (b64_of_Z 2))
    [b64_point 3 3; b64_point 3 3; b64_point 3 3; b64_point 3 3]
  = Some (MkAffine (b64_of_Z 0) (b64_of_Z 0) (b64_of_Z 3)
                   (b64_of_Z 0) (b64_of_Z 0) (b64_of_Z 3)).
Proof. vm_compute. reflexivity. Qed.

(** A zero pivot: the divisor is 1e-9 and the entry 1/1e-9 =
    999999999.9999999. *)
Lemma b64_zero_pivot :
  @pivot_divisor _ B64 [[b64_of_Z 0; b64_of_Z 1]] 0 = Some (b64_of_dec 1 (-9))
  ∧ @inv _ B64 [[b64_of_Z 0]] = Some [[S754_finite false 8388607999999999 (-23)]].
Proof. split; vm_compute; reflexivity. Qed.


(** X8.  The signScale that the fit writes, for a scale that is NaN, zero, small
    and large: NaN and 0 are replaced by 1, 0.01 is raised to 0.05, 3 is
    kept. *)
Lemma b64_signScale_runs :
  let scale_of v := @fitPatch _ B64 (MkPose (Vec3 v v v) v (Vec3 v v v))
                      !! "signScale" in
  scale_of S754_nan = Some (VNum (b64_of_Z 1))
  ∧ scale_of (b64_of_Z 0) = Some (VNum (b64_of_Z 1))
  ∧ scale_of (b64_of_dec 1 (-2)) = Some (VNum (b64_of_dec 5 (-2)))
  ∧ scale_of (b64_of_Z 3) = Some (VNum (b64_of_Z 3)).
Proof. repeat split; vm_compute; reflexivity. Qed.
End Binary64Runs.
